(** * Integration manifests and the version-bump command

    A shallow embedding of two parts of the repository:

    - [packages/sdk] integration definition: [formatIntegrationDefinition],
      the static manifest schema [integrationDefinitionSchema] and the
      constructor of [IntegrationDefinition];
    - [scripts/depsynky/src/commands/bump-versions.ts]: [promptJump] and
      [bumpVersion].

    JavaScript objects are finite maps from property names to values
    ([gmap string value]); exceptions are an error monad; the interactive
    command threads a world (manifests on disk, scripted answers, logs)
    that survives a thrown error. *)

From Stdlib Require Import Ascii DecimalString DecimalN.
From stdpp Require Import gmap strings list fin_maps pretty.

Set Warnings "-register-all".
Set Default Proof Using "Type".

(** ** Exceptions *)

Inductive result (E A : Type) : Type :=
  | Ok (a : A)
  | Err (e : E).
Arguments Ok {E A} a.
Arguments Err {E A} e.

#[global] Instance result_ret {E} : MRet (result E) := λ A a, Ok a.
#[global] Instance result_bind {E} : MBind (result E) := λ A B f m,
  match m with Ok a => f a | Err e => Err e end.
#[global] Instance result_fmap {E} : FMap (result E) := λ A B f m,
  match m with Ok a => Ok (f a) | Err e => Err e end.

(** ** JavaScript values *)

Module Js.

(** The values a definition object or a JSON Schema is made of.  Numbers
    are never inspected by this code beyond their type and truthiness, so
    integers stand for them. *)
Inductive value : Type :=
  | VUndefined
  | VNull
  | VBool (b : bool)
  | VNum (n : Z)
  | VStr (s : string)
  | VArr (l : list value)
  | VObj (m : gmap string value).

Definition is_undefined (v : value) : bool :=
  match v with VUndefined => true | _ => false end.

(** [v ? a : b] takes the first branch on a truthy [v]. *)
Definition truthy (v : value) : bool :=
  match v with
  | VUndefined | VNull => false
  | VBool b => b
  | VNum n => negb (n =? 0)%Z
  | VStr s => negb (String.eqb s "")
  | VArr _ | VObj _ => true
  end.

Fixpoint chars (s : string) : list value :=
  match s with
  | EmptyString => []
  | String c s' => VStr (String c EmptyString) :: chars s'
  end.

Definition indexed (l : list value) : gmap string value :=
  list_to_map (imap (λ i v, (pretty i, v)) l).

(** The own enumerable properties of a value: what [{...v}] copies and
    what [Object.keys(v)] lists.  Arrays and strings expose their
    indices, the other primitives nothing. *)
Definition own_props (v : value) : gmap string value :=
  match v with
  | VObj m => m
  | VArr l => indexed l
  | VStr s => indexed (chars s)
  | _ => ∅
  end.

(** [m[k]] of an object: [undefined] when the key is not there. *)
Definition prop (m : gmap string value) (k : string) : value :=
  default VUndefined (m !! k).

Inductive TypeError : Type :=
  | CannotReadProperty (k : string)
  | CannotConvertToObject.

(** [v.k] for the property names this code reads ([configuration],
    [events], [messages], ...): none of them is an index or a property
    that arrays or strings inherit. *)
Definition get (v : value) (k : string) : result TypeError value :=
  match v with
  | VUndefined | VNull => Err (CannotReadProperty k)
  | VObj m => Ok (prop m k)
  | _ => Ok VUndefined
  end.

(** [Object.keys(v)] throws on [undefined] and [null]. *)
Definition to_object (v : value) : result TypeError (gmap string value) :=
  match v with
  | VUndefined | VNull => Err CannotConvertToObject
  | _ => Ok (own_props v)
  end.

End Js.
Export Js.

(** Applying a fallible function to every value of an object; the first
    failure, in the order the entries are visited, is the one raised. *)
Definition map_traverse {E A B} (f : A → result E B) (m : gmap string A)
    : result E (gmap string B) :=
  list_to_map <$> mapM (λ kv, pair kv.1 <$> f kv.2) (map_to_list m).

(** ** The schema library (zod), as far as the manifest schema uses it *)

Module Zod.

Inductive ZodParsedType : Set :=
  | t_undefined | t_null | t_boolean | t_number | t_string | t_array | t_object.

Definition getParsedType (data : value) : ZodParsedType :=
  match data with
  | VUndefined => t_undefined
  | VNull => t_null
  | VBool _ => t_boolean
  | VNum _ => t_number
  | VStr _ => t_string
  | VArr _ => t_array
  | VObj _ => t_object
  end.

Inductive PathSegment : Set :=
  | PKey (k : string)
  | PIdx (i : nat).

Inductive Expected : Set :=
  | ExpType (t : ZodParsedType)
  | ExpValues (options : list string).

(** Issues carry their code with its payload and the path to the value
    they are about.  Only custom issues carry a message of their own; the
    library derives the other messages from the code. *)
Inductive ZodIssue : Type :=
  | Issue (code : ZodIssueCode) (path : list PathSegment)
with ZodIssueCode : Type :=
  | invalid_type (expected : Expected) (received : ZodParsedType)
  | invalid_literal (expected : string) (received : value)
  | invalid_enum_value (options : list string) (received : value)
  | invalid_union (unionErrors : list (list ZodIssue))
  | custom (message : string).

Definition issue_code (i : ZodIssue) : ZodIssueCode := let (c, _) := i in c.
Definition issue_path (i : ZodIssue) : list PathSegment := let (_, p) := i in p.

Inductive UnknownKeys : Set := strip | passthrough.

Inductive ZodType : Type :=
  | ZodString
  | ZodBoolean
  | ZodLiteral (lit : string)
  | ZodEnum (values : list string)
  | ZodUnion (options : list ZodType)
  | ZodArray (element : ZodType)
  | ZodRecord (valueType : ZodType)
  | ZodObject (shape : list (string * ZodType)) (unknownKeys : UnknownKeys)
  | ZodOptional (innerType : ZodType)
  | ZodEffects (inner : ZodType) (refinement : value → bool) (message : string).

(** What [_parse] returns together with the issues it added to the
    context: no output when the parse aborted; an output with issues is a
    dirty parse. *)
Record ParseReturn : Type := mkReturn {
  issues : list ZodIssue;
  output : option value
}.

Definition OK (v : value) : ParseReturn := mkReturn [] (Some v).
Definition INVALID (c : ZodIssueCode) (path : list PathSegment) : ParseReturn :=
  mkReturn [Issue c path] None.

Definition isValid (r : ParseReturn) : bool :=
  match r with mkReturn [] (Some _) => true | _ => false end.
Definition isDirty (r : ParseReturn) : bool :=
  match r with mkReturn (_ :: _) (Some _) => true | _ => false end.

(** A pair of [ParseStatus.mergeObjectSync]: key, parsed value, and
    whether the key is set even when its value is [undefined]. *)
Record Pair : Type := mkPair {
  pair_key : string;
  pair_value : ParseReturn;
  alwaysSet : bool
}.

Definition pair_entry (p : Pair) : option (string * value) :=
  match output (pair_value p) with
  | Some v => if is_undefined v && negb (alwaysSet p) then None else Some (pair_key p, v)
  | None => None
  end.

Definition mergeObjectSync (pairs : list Pair) : ParseReturn :=
  mkReturn (concat (map (λ p, issues (pair_value p)) pairs))
    (if forallb (λ p, bool_decide (is_Some (output (pair_value p)))) pairs
     then Some (VObj (list_to_map (omap pair_entry pairs)))
     else None).

Definition mergeArray (results : list ParseReturn) : ParseReturn :=
  mkReturn (concat (map issues results))
    (VArr <$> mapM output results).

Definition invalid_type_at (t : ZodParsedType) (path : list PathSegment) (data : value)
    : ParseReturn :=
  INVALID (invalid_type (ExpType t) (getParsedType data)) path.

Definition in_shape (shape : list (string * ZodType)) (k : string) : bool :=
  bool_decide (k ∈ shape.*1).

Fixpoint _parse (s : ZodType) (path : list PathSegment) (data : value) : ParseReturn :=
  match s with
  | ZodString =>
      match data with
      | VStr _ => OK data
      | _ => invalid_type_at t_string path data
      end
  | ZodBoolean =>
      match data with
      | VBool _ => OK data
      | _ => invalid_type_at t_boolean path data
      end
  | ZodLiteral lit =>
      match data with
      | VStr x => if String.eqb x lit then OK data
                  else INVALID (invalid_literal lit data) path
      | _ => INVALID (invalid_literal lit data) path
      end
  | ZodEnum values =>
      match data with
      | VStr x => if bool_decide (x ∈ values) then OK data
                  else INVALID (invalid_enum_value values data) path
      | _ => INVALID (invalid_type (ExpValues values) (getParsedType data)) path
      end
  | ZodUnion options =>
      let results := map (λ o, _parse o path data) options in
      match find isValid results with
      | Some r => r
      | None =>
          match find isDirty results with
          | Some r => r
          | None => INVALID (invalid_union (map issues results)) path
          end
      end
  | ZodArray element =>
      match data with
      | VArr l =>
          mergeArray (imap (λ i x, _parse element (path ++ [PIdx i]) x) l)
      | _ => invalid_type_at t_array path data
      end
  | ZodRecord valueType =>
      match data with
      | VObj m =>
          mergeObjectSync
            (map (λ kv, mkPair kv.1 (_parse valueType (path ++ [PKey kv.1]) kv.2) false)
                 (map_to_list m))
      | _ => invalid_type_at t_object path data
      end
  | ZodObject shape unknownKeys =>
      match data with
      | VObj m =>
          let known :=
            map (λ ks, mkPair ks.1 (_parse ks.2 (path ++ [PKey ks.1]) (prop m ks.1))
                              (bool_decide (is_Some (m !! ks.1)))) shape in
          let extra :=
            match unknownKeys with
            | strip => []
            | passthrough =>
                map (λ kv, mkPair kv.1 (OK kv.2) false)
                    (filter (λ kv, in_shape shape kv.1 = false) (map_to_list m))
            end in
          mergeObjectSync (known ++ extra)
      | _ => invalid_type_at t_object path data
      end
  | ZodOptional innerType =>
      match data with
      | VUndefined => OK VUndefined
      | _ => _parse innerType path data
      end
  | ZodEffects inner refinement message =>
      let r := _parse inner path data in
      match output r with
      | None => r
      | Some v =>
          if refinement v then r
          else mkReturn (issues r ++ [Issue (custom message) path]) (Some v)
      end
  end.

(** [schema.parse(data)]: the parsed value, or a [ZodError] with every
    issue found. *)
Definition parse (s : ZodType) (data : value) : result (list ZodIssue) value :=
  let r := _parse s [] data in
  match output r with
  | Some v => if isValid r then Ok v else Err (issues r)
  | None => Err (issues r)
  end.

(** [.optional()], [.partial()], [.passthrough()], [z.record(v)] and
    [.refine(check, { message })]. *)
Definition optional (s : ZodType) : ZodType := ZodOptional s.

Definition partial (s : ZodType) : ZodType :=
  match s with
  | ZodObject shape unknownKeys =>
      ZodObject (map (λ ks, (ks.1, ZodOptional ks.2)) shape) unknownKeys
  | _ => s
  end.

Definition passthrough_ (s : ZodType) : ZodType :=
  match s with
  | ZodObject shape _ => ZodObject shape passthrough
  | _ => s
  end.

Definition object (shape : list (string * ZodType)) : ZodType := ZodObject shape strip.

(** [schema.shape] *)
Definition shape_of (s : ZodType) : list (string * ZodType) :=
  match s with
  | ZodObject shape _ => shape
  | _ => []
  end.
Definition record (valueType : ZodType) : ZodType := ZodRecord valueType.
Definition refine (s : ZodType) (check : value → bool) (message : string) : ZodType :=
  ZodEffects s check message.

End Zod.

(** ** The integration definition (SDK) *)

Module Sdk.
Import Zod.

(** [nonEmptyDict(v).min(n)] *)
Definition nonEmptyDict (v : ZodType) (n : nat) : ZodType :=
  let r := record v in
  refine r (λ obj, bool_decide (n ≤ size (own_props obj)))
    ("At least " +:+ pretty n +:+ " item(s) must be defined").

Definition schemaSchema : ZodType := passthrough_ (object []).

Definition configurationDefinitionSchema : ZodType :=
  object [("schema", schemaSchema)].

Definition eventDefinitionSchema : ZodType :=
  object [("title", optional ZodString);
          ("description", optional ZodString);
          ("schema", schemaSchema)].

Definition actionDefinitionSchema : ZodType :=
  object [("title", optional ZodString);
          ("description", optional ZodString);
          ("input", object [("schema", schemaSchema)]);
          ("output", object [("schema", schemaSchema)])].

Definition messageDefinitionSchema : ZodType :=
  object [("schema", schemaSchema)].

Definition tagDefinitionSchema : ZodType :=
  object [("title", optional ZodString);
          ("description", optional ZodString)].

Definition channelDefinitionSchema : ZodType :=
  object [("title", optional ZodString);
          ("description", optional ZodString);
          ("messages", nonEmptyDict messageDefinitionSchema 1);
          ("message",
            optional (partial (object [("tags", record tagDefinitionSchema)])));
          ("conversation",
            optional (partial (object
              [("tags", record tagDefinitionSchema);
               ("creation", object [("enabled", ZodBoolean);
                                    ("requiredTags", ZodArray ZodString)])])))].

Definition stateDefinitionSchema : ZodType :=
  object [("type", ZodUnion [ZodLiteral "integration";
                             ZodLiteral "conversation";
                             ZodLiteral "user"]);
          ("schema", schemaSchema)].

Definition PUBLIC_VERSION : string := "0.2.0".
Definition PRIVATE_VERSION : string := "0.0.1".

Definition integrationDefinitionSchema : ZodType :=
  object [("name", ZodString);
          ("version", ZodEnum [PRIVATE_VERSION; PUBLIC_VERSION]);
          ("title", optional ZodString);
          ("description", optional ZodString);
          ("icon", optional ZodString);
          ("readme", optional ZodString);
          ("configuration", optional configurationDefinitionSchema);
          ("events", optional (record eventDefinitionSchema));
          ("actions", optional (record actionDefinitionSchema));
          ("channels", optional (record channelDefinitionSchema));
          ("states", optional (record stateDefinitionSchema));
          ("user",
            optional (partial (object
              [("tags", record tagDefinitionSchema);
               ("creation", object [("enabled", ZodBoolean);
                                    ("requiredTags", ZodArray ZodString)])])));
          ("secrets", optional (ZodArray ZodString))].

(** What construction can throw: the validation error of the schema
    library, a [TypeError] of the language, or whatever the schema
    translation raises. *)
Inductive Thrown : Type :=
  | ZodError (issues : list ZodIssue)
  | JsTypeError (e : TypeError)
  | TranslationError (what : string).

Definition js {A} (r : result TypeError A) : result Thrown A :=
  match r with Ok a => Ok a | Err e => Err (JsTypeError e) end.

(** radash's [mapValues]: a fresh object with the same keys. *)
Definition mapValues (obj : value) (mapFunc : value → result Thrown value)
    : result Thrown value :=
  keys ← js (to_object obj);
  VObj <$> map_traverse mapFunc keys.

Section Definition_.

(** [schemaDefinitionToJsonSchema] is imported from [./schema]: it takes
    a section carrying a schema declaration and returns the JSON Schema
    object of that declaration, or throws something of its own. *)
Variable schemaDefinitionToJsonSchema : value → result string (gmap string value).

(** [{ ...section, schema: schemaDefinitionToJsonSchema(section) }] *)
Definition with_json_schema (section : value) : result Thrown value :=
  match schemaDefinitionToJsonSchema section with
  | Ok schema => Ok (VObj (<["schema" := VObj schema]> (own_props section)))
  | Err what => Err (TranslationError what)
  end.

Definition format_action (action : value) : result Thrown value :=
  input0 ← js (get action "input");
  input ← with_json_schema input0;
  output0 ← js (get action "output");
  output ← with_json_schema output0;
  mret (VObj (<["output" := output]> (<["input" := input]> (own_props action)))).

Definition format_channel (channel : value) : result Thrown value :=
  messages0 ← js (get channel "messages");
  messages ← mapValues messages0 with_json_schema;
  mret (VObj (<["messages" := messages]> (own_props channel))).

Definition formatIntegrationDefinition (definition : value) : result Thrown value :=
  configuration0 ← js (get definition "configuration");
  configuration ←
    (if truthy configuration0 then with_json_schema configuration0
     else mret VUndefined);
  events0 ← js (get definition "events");
  events ←
    (if truthy events0 then mapValues events0 with_json_schema
     else mret VUndefined);
  actions0 ← js (get definition "actions");
  actions ←
    (if truthy actions0 then mapValues actions0 format_action
     else mret VUndefined);
  channels0 ← js (get definition "channels");
  channels ←
    (if truthy channels0 then mapValues channels0 format_channel
     else mret VUndefined);
  states0 ← js (get definition "states");
  states ←
    (if truthy states0 then mapValues states0 with_json_schema
     else mret VUndefined);
  user ← js (get definition "user");
  mret (VObj (<["user" := user]>
              (<["states" := states]>
              (<["channels" := channels]>
              (<["actions" := actions]>
              (<["events" := events]>
              (<["configuration" := configuration]>
              (own_props definition)))))))).

Record IntegrationDefinition : Type := mkIntegrationDefinition {
  name : value;
  version : value;
  icon : value;
  readme : value;
  title : value;
  description : value;
  configuration : value;
  events : value;
  actions : value;
  channels : value;
  states : value;
  user : value;
  secrets : value
}.

(** [const { name, version, ... } = parsed; this.name = name; ...] *)
Definition assign_fields (parsed : value) : IntegrationDefinition :=
  let p := prop (own_props parsed) in
  {| name := p "name";
     version := p "version";
     icon := p "icon";
     readme := p "readme";
     title := p "title";
     description := p "description";
     configuration := p "configuration";
     events := p "events";
     actions := p "actions";
     channels := p "channels";
     states := p "states";
     user := p "user";
     secrets := p "secrets" |}.

Definition validate (input : value) : result Thrown value :=
  match parse integrationDefinitionSchema input with
  | Ok parsed => Ok parsed
  | Err issues => Err (ZodError issues)
  end.

(** [new IntegrationDefinition(props)] *)
Definition new_IntegrationDefinition (props : value)
    : result Thrown IntegrationDefinition :=
  integrationDefinitionInput ← formatIntegrationDefinition props;
  parsed ← validate integrationDefinitionInput;
  mret (assign_fields parsed).

End Definition_.

End Sdk.

(** ** The semantic-version library (semver), as far as [bumpVersion] uses it *)

Module Semver.

Definition MAX_LENGTH : nat := 256.
Definition MAX_SAFE_INTEGER : N := 9007199254740991.

Record SemVer : Type := mkSemVer {
  major : N;
  minor : N;
  patch : N;
  prerelease : list string;
  build : list string
}.

(** The release types the command can pass.  Any other argument
    (['none'], [undefined]) falls to the default branch of the switch of
    [SemVer.inc], which throws. *)
Inductive ReleaseType : Set := r_major | r_minor | r_patch.

Definition is_space (c : ascii) : bool :=
  let n := nat_of_ascii c in
  (n =? 32)%nat || ((9 <=? n)%nat && (n <=? 13)%nat).

Fixpoint ltrim (s : string) : string :=
  match s with
  | String c s' => if is_space c then ltrim s' else s
  | EmptyString => EmptyString
  end.

Fixpoint rtrim (s : string) : string :=
  match s with
  | String c s' =>
      match rtrim s' with
      | EmptyString => if is_space c then EmptyString else String c EmptyString
      | rest => String c rest
      end
  | EmptyString => EmptyString
  end.

(** [version.trim()], for the ASCII white space. *)
Definition trim (s : string) : string := rtrim (ltrim s).

(** Cut at the first [sep]: what is before it and, when there is one,
    what is after it. *)
Fixpoint break (sep : ascii) (s : string) : string * option string :=
  match s with
  | EmptyString => (EmptyString, None)
  | String c s' =>
      if Ascii.eqb c sep then (EmptyString, Some s')
      else let (a, b) := break sep s' in (String c a, b)
  end.

(** [s.split(sep)] *)
Fixpoint split (sep : ascii) (s : string) : list string :=
  match s with
  | EmptyString => [EmptyString]
  | String c s' =>
      if Ascii.eqb c sep then EmptyString :: split sep s'
      else match split sep s' with
           | x :: xs => String c x :: xs
           | [] => [String c EmptyString]
           end
  end.

Definition is_digit (c : ascii) : bool :=
  let n := nat_of_ascii c in (48 <=? n)%nat && (n <=? 57)%nat.

Definition is_letter_or_hyphen (c : ascii) : bool :=
  let n := nat_of_ascii c in
  ((65 <=? n)%nat && (n <=? 90)%nat) || ((97 <=? n)%nat && (n <=? 122)%nat)
  || (n =? 45)%nat.

Fixpoint all_chars (p : ascii → bool) (s : string) : bool :=
  match s with
  | EmptyString => true
  | String c s' => p c && all_chars p s'
  end.

(** NUMERICIDENTIFIER, [0|[1-9]\d*]: digits without a leading zero. *)
Definition numeric_identifier (s : string) : option N :=
  match NilZero.uint_of_string s with
  | Some d => if Decimal.uint_beq (Decimal.unorm d) d then Some (N.of_uint d) else None
  | None => None
  end.

(** BUILDIDENTIFIER, [[0-9A-Za-z-]+] *)
Definition build_identifier (s : string) : bool :=
  negb (String.eqb s "") && all_chars (λ c, is_digit c || is_letter_or_hyphen c) s.

(** PRERELEASEIDENTIFIER: a numeric identifier, or an identifier with a
    letter or a hyphen in it. *)
Definition prerelease_identifier (s : string) : bool :=
  build_identifier s
  && (negb (all_chars is_digit s) || bool_decide (is_Some (numeric_identifier s))).

Definition identifiers (valid : string → bool) (part : option string)
    : option (list string) :=
  match part with
  | None => Some []
  | Some s => let ids := split "."%char s in
              if forallb valid ids then Some ids else None
  end.

Definition safe (n : N) : option N :=
  if (n <=? MAX_SAFE_INTEGER)%N then Some n else None.

(** [new SemVer(version)] with the strict expression
    [^v?MAJOR.MINOR.PATCH(-PRERELEASE)?(+BUILD)?$]; [None] where the
    constructor throws. *)
Definition parse (version : string) : option SemVer :=
  if (MAX_LENGTH <? String.length version)%nat then None
  else
    let v := trim version in
    let v := match v with
             | String "v"%char rest => rest
             | _ => v
             end in
    let (main_pre, bld) := break "+"%char v in
    let (main, pre) := break "-"%char main_pre in
    match split "."%char main with
    | [a; b; c] =>
        ma ← numeric_identifier a ≫= safe;
        mi ← numeric_identifier b ≫= safe;
        pa ← numeric_identifier c ≫= safe;
        pre_ids ← identifiers prerelease_identifier pre;
        build_ids ← identifiers build_identifier bld;
        Some (mkSemVer ma mi pa pre_ids build_ids)
    | _ => None
    end.

Definition show (n : N) : string := NilZero.string_of_uint (N.to_uint n).

Definition join (sep : string) (l : list string) : string :=
  match l with
  | [] => ""
  | x :: xs => fold_left (λ acc y, acc +:+ sep +:+ y) xs x
  end.

(** [SemVer.format()]: the build identifiers are not part of [version]. *)
Definition format (v : SemVer) : string :=
  let main := show (major v) +:+ "." +:+ show (minor v) +:+ "." +:+ show (patch v) in
  match prerelease v with
  | [] => main
  | ids => main +:+ "-" +:+ join "." ids
  end.

(** [SemVer.inc(release)] *)
Definition inc_release (v : SemVer) (release : ReleaseType) : SemVer :=
  match release with
  | r_major =>
      let ma :=
        if negb (minor v =? 0)%N || negb (patch v =? 0)%N
           || bool_decide (prerelease v = [])
        then (major v + 1)%N else major v in
      mkSemVer ma 0 0 [] (build v)
  | r_minor =>
      let mi :=
        if negb (patch v =? 0)%N || bool_decide (prerelease v = [])
        then (minor v + 1)%N else minor v in
      mkSemVer (major v) mi 0 [] (build v)
  | r_patch =>
      let pa :=
        if bool_decide (prerelease v = []) then (patch v + 1)%N else patch v in
      mkSemVer (major v) (minor v) pa [] (build v)
  end.

(** [semver.inc(version, release)]: [null] when the version does not
    parse or the argument is no release type. *)
Definition inc (version : string) (release : option ReleaseType) : option string :=
  v ← parse version;
  r ← release;
  Some (format (inc_release v r)).

End Semver.

(** ** The version-bump command (depsynky) *)

Module Depsynky.

Inductive VersionJump : Set := major | minor | patch | none.

Record PackageJson : Type := mkPackageJson {
  name : string;
  version : string;
  private : bool;
  dependencies : gmap string string
}.

Record PnpmPackage : Type := mkPackage {
  path : string;
  content : PackageJson
}.

(** What the command acts on: the manifests on disk by path, the answers
    the user will give to the prompts to come, and two logs: the packages
    prompted for (name and version shown) and the paths written. *)
Record World : Type := mkWorld {
  files : gmap string PackageJson;
  answers : list VersionJump;
  prompted : list (string * string);
  written : list string
}.

Inductive Failure : Type :=
  | DepSynkyError (message : string)
  | FileNotFound (path : string).

(** A command changes the world and returns or throws; what it did to
    the world before throwing stays done. *)
Definition M (A : Type) : Type := World → World * result Failure A.

#[global] Instance M_ret : MRet M := λ A a w, (w, Ok a).
#[global] Instance M_bind : MBind M := λ A B f m w,
  match m w with
  | (w', Ok a) => f a w'
  | (w', Err e) => (w', Err e)
  end.

Definition throw {A} (e : Failure) : M A := λ w, (w, Err e).

Definition jump_name (jump : option VersionJump) : string :=
  match jump with
  | Some major => "major"
  | Some minor => "minor"
  | Some patch => "patch"
  | Some none => "none"
  | None => "undefined"
  end.

Definition release_type (jump : option VersionJump) : option Semver.ReleaseType :=
  match jump with
  | Some major => Some Semver.r_major
  | Some minor => Some Semver.r_minor
  | Some patch => Some Semver.r_patch
  | Some none | None => None
  end.

(** The select prompt: the next scripted answer; [undefined] when the
    user gives none (the prompt is cancelled). *)
Definition promptJump (pkgName pkgVersion : string) : M (option VersionJump) := λ w,
  let asked := prompted w ++ [(pkgName, pkgVersion)] in
  match answers w with
  | jump :: rest => (mkWorld (files w) rest asked (written w), Ok (Some jump))
  | [] => (mkWorld (files w) [] asked (written w), Ok None)
  end.

Definition set_version (next : string) (p : PackageJson) : PackageJson :=
  mkPackageJson (name p) next (private p) (dependencies p).

(** Modelled from the spec: [utils.pkgjson.update] is not part of the
    sources at hand; package manifests are "read and rewritten in place":
    the file is read, the given fields replace its own, and the result is
    written back to the same path. *)
Definition pkgjson_update (pkgPath : string) (next : string) : M unit := λ w,
  match files w !! pkgPath with
  | Some current =>
      (mkWorld (<[pkgPath := set_version next current]> (files w))
               (answers w) (prompted w) (written w ++ [pkgPath]), Ok tt)
  | None => (w, Err (FileNotFound pkgPath))
  end.

(** The body of the loop of [bumpVersion], for one target package. *)
Definition bump_package (pkg : PnpmPackage) (targetVersions : gmap string string)
    : M (gmap string string) :=
  if private (content pkg) then mret targetVersions
  else
    jump ← promptJump (name (content pkg)) (version (content pkg));
    match jump with
    | Some none => mret targetVersions
    | _ =>
        match Semver.inc (version (content pkg)) (release_type jump) with
        | None => throw (DepSynkyError ("Invalid version jump: " +:+ jump_name jump))
        | Some next =>
            let targetVersions' := <[name (content pkg) := next]> targetVersions in
            _ ← pkgjson_update (path pkg) next;
            mret targetVersions'
        end
    end.

(** [for (const { path, content } of targetPackages) { ... }] *)
Fixpoint bump_packages (targetPackages : list PnpmPackage)
    (targetVersions : gmap string string) : M (gmap string string) :=
  match targetPackages with
  | [] => mret targetVersions
  | pkg :: rest =>
      targetVersions' ← bump_package pkg targetVersions;
      bump_packages rest targetVersions'
  end.

Record Argv : Type := mkArgv {
  rootDir : string;
  sync : bool
}.

Section Command.

(** [utils.pnpm.findReferences], [utils.pnpm.versions], [listVersions]
    and [syncVersions] are imported by the command. *)
Variable findReferences : string → string → M (PnpmPackage * list PnpmPackage).
Variable versions : list PnpmPackage → gmap string string.
Variable listVersions : Argv → M unit.
Variable syncVersions : Argv → gmap string string → M unit.

Definition bumpVersion (pkgName : string) (argv : Argv) : M unit :=
  refs ← findReferences (rootDir argv) pkgName;
  let targetPackages := refs.1 :: refs.2 in
  let currentVersions := versions targetPackages in
  targetVersions ← bump_packages targetPackages currentVersions;
  _ ← listVersions argv;
  if sync argv then syncVersions argv targetVersions else mret tt.

End Command.

End Depsynky.

(** ** What the specification speaks of *)

Module Spec.
Import Zod Sdk.

(** A schema whose accepted values come back as they are. *)
Definition scalar (s : ZodType) : bool :=
  match s with
  | ZodString | ZodBoolean | ZodLiteral _ | ZodEnum _ => true
  | _ => false
  end.

(** [conforms s v]: the value has exactly the shape the schema
    describes: every declared field has its type, an object that strips
    unknown keys has none, and no entry that is merely passed through or
    sits in a record is [undefined]. *)
Fixpoint conforms (s : ZodType) (v : value) : Prop :=
  match s with
  | ZodString => ∃ x, v = VStr x
  | ZodBoolean => ∃ b, v = VBool b
  | ZodLiteral lit => v = VStr lit
  | ZodEnum values => ∃ x, v = VStr x ∧ x ∈ values
  | ZodUnion options =>
      forallb scalar options = true ∧
      (fix any (os : list ZodType) : Prop :=
         match os with
         | [] => False
         | o :: os' => conforms o v ∨ any os'
         end) options
  | ZodArray element => ∃ l, v = VArr l ∧ Forall (conforms element) l
  | ZodRecord valueType =>
      ∃ m, v = VObj m ∧
           map_Forall (λ _ x, x ≠ VUndefined ∧ conforms valueType x) m
  | ZodObject shape unknownKeys =>
      ∃ m, v = VObj m ∧ NoDup shape.*1 ∧
           (fix fields (sh : list (string * ZodType)) : Prop :=
              match sh with
              | [] => True
              | ks :: sh' => conforms ks.2 (prop m ks.1) ∧ fields sh'
              end) shape ∧
           match unknownKeys with
           | strip => dom m ⊆@{gset string} list_to_set shape.*1
           | passthrough =>
               map_Forall (λ k x, in_shape shape k = false → is_undefined x = false) m
           end
  | ZodOptional innerType => v = VUndefined ∨ conforms innerType v
  | ZodEffects inner refinement _ => conforms inner v ∧ refinement v = true
  end.


(** The schemas this code builds: a union chooses among scalars, and an
    object declares each of its keys once. *)
Fixpoint regular (s : ZodType) : bool :=
  match s with
  | ZodString | ZodBoolean | ZodLiteral _ | ZodEnum _ => true
  | ZodUnion options => forallb scalar options
  | ZodArray element => regular element
  | ZodRecord valueType => regular valueType
  | ZodObject shape _ =>
      bool_decide (NoDup shape.*1) && forallb (λ ks, regular ks.2) shape
  | ZodOptional innerType => regular innerType
  | ZodEffects inner _ _ => regular inner
  end.

(** The value a path leads to inside a value, and the schema it leads to
    inside a schema. *)
Fixpoint value_at (v : value) (p : list PathSegment) : value :=
  match p with
  | [] => v
  | PKey k :: p' =>
      match v with
      | VObj m => value_at (prop m k) p'
      | _ => VUndefined
      end
  | PIdx i :: p' =>
      match v with
      | VArr l => value_at (default VUndefined (l !! i)) p'
      | _ => VUndefined
      end
  end.

Inductive schema_at : ZodType → list PathSegment → ZodType → Prop :=
  | at_here s : schema_at s [] s
  | at_field shape uk k s p s' :
      (k, s) ∈ shape → schema_at s p s' →
      schema_at (ZodObject shape uk) (PKey k :: p) s'
  | at_entry t k p s' :
      schema_at t p s' → schema_at (ZodRecord t) (PKey k :: p) s'
  | at_element e i p s' :
      schema_at e p s' → schema_at (ZodArray e) (PIdx i :: p) s'
  | at_optional s p s' :
      schema_at s p s' → schema_at (ZodOptional s) p s'
  | at_effects s chk msg p s' :
      schema_at s p s' → schema_at (ZodEffects s chk msg) p s'
  | at_option os o p s' :
      o ∈ os → schema_at o p s' → schema_at (ZodUnion os) p s'.

Section Sections.

Variable schemaDefinitionToJsonSchema : value → result string (gmap string value).





(** At [path], the formatted object [f] holds a section whose [schema]
    is the translation of [section]. *)
Definition carries_translation (f : value) (path : list PathSegment)
    (section : value) : Prop :=
  ∃ j, schemaDefinitionToJsonSchema section = Ok j ∧
       value_at f (path ++ [PKey "schema"]) = VObj j.


End Sections.

(** The constructed object seen as an object: its thirteen properties. *)
Definition fields (r : IntegrationDefinition) : gmap string value :=
  list_to_map
    [("name", name r); ("version", version r); ("icon", icon r);
     ("readme", readme r); ("title", title r); ("description", description r);
     ("configuration", configuration r); ("events", events r);
     ("actions", actions r); ("channels", channels r); ("states", states r);
     ("user", user r); ("secrets", secrets r)].

Definition optional_fields : list string :=
  ["title"; "description"; "icon"; "readme"; "configuration"; "events";
   "actions"; "channels"; "states"; "user"; "secrets"].

Definition not_ZodError (e : Thrown) : Prop :=
  match e with ZodError _ => False | _ => True end.


(** The definition object with its five schema-carrying sections put in
    place. *)
Definition merged (m : gmap string value)
    (configuration events actions channels states : value) : gmap string value :=
  <["user" := prop m "user"]>
    (<["states" := states]>
    (<["channels" := channels]>
    (<["actions" := actions]>
    (<["events" := events]>
    (<["configuration" := configuration]> m))))).

(** The next version by the rules of semantic versioning: the component
    of the release is incremented and the lower ones are reset. *)
Definition next_release (v : Semver.SemVer) (release : Semver.ReleaseType)
    : Semver.SemVer :=
  match release with
  | Semver.r_major => Semver.mkSemVer (Semver.major v + 1) 0 0 [] (Semver.build v)
  | Semver.r_minor =>
      Semver.mkSemVer (Semver.major v) (Semver.minor v + 1) 0 [] (Semver.build v)
  | Semver.r_patch =>
      Semver.mkSemVer (Semver.major v) (Semver.minor v) (Semver.patch v + 1) []
                      (Semver.build v)
  end.

(** The target packages the command prompts for, in order. *)
Definition prompted_packages (pkgs : list Depsynky.PnpmPackage)
    : list Depsynky.PnpmPackage :=
  filter (λ pkg, Depsynky.private (Depsynky.content pkg) = false) pkgs.

Definition pkg_path (pkg : Depsynky.PnpmPackage) : string := Depsynky.path pkg.
Definition pkg_name (pkg : Depsynky.PnpmPackage) : string :=
  Depsynky.name (Depsynky.content pkg).
Definition pkg_version (pkg : Depsynky.PnpmPackage) : string :=
  Depsynky.version (Depsynky.content pkg).

(** The world after a prompt for the package: an answer is consumed,
    the prompt is logged, nothing else changes. *)
Definition asked (pkg : Depsynky.PnpmPackage) (w : Depsynky.World) : Depsynky.World :=
  Depsynky.mkWorld (Depsynky.files w) (tail (Depsynky.answers w))
    (Depsynky.prompted w ++ [(pkg_name pkg, pkg_version pkg)]) (Depsynky.written w).

(** What the command wrote and asked between two worlds. *)
Definition new_writes (w w' : Depsynky.World) : list string :=
  drop (length (Depsynky.written w)) (Depsynky.written w').

Definition new_prompts (w w' : Depsynky.World) : list (string * string) :=
  drop (length (Depsynky.prompted w)) (Depsynky.prompted w').

(** What a prompt shows of a package. *)
Definition shown (pkg : Depsynky.PnpmPackage) : string * string :=
  (pkg_name pkg, pkg_version pkg).

(** The packages the command prompts for, each with the answer it gets
    from a list of answers. *)
Definition chosen (pkgs : list Depsynky.PnpmPackage)
    (answers : list Depsynky.VersionJump)
    : list (Depsynky.PnpmPackage * Depsynky.VersionJump) :=
  zip (prompted_packages pkgs) answers.

Definition is_release (jump : Depsynky.VersionJump) : bool :=
  match jump with Depsynky.none => false | _ => true end.

(** Precedence of semantic versions, towards a version [b] that has no
    prerelease identifiers: a lower major, minor or patch number comes
    first, and a prerelease comes before its release. *)
Definition precedes (a b : Semver.SemVer) : Prop :=
  (Semver.major a < Semver.major b)%N
  ∨ (Semver.major a = Semver.major b ∧ (Semver.minor a < Semver.minor b)%N)
  ∨ (Semver.major a = Semver.major b ∧ Semver.minor a = Semver.minor b
     ∧ (Semver.patch a < Semver.patch b)%N)
  ∨ (Semver.major a = Semver.major b ∧ Semver.minor a = Semver.minor b
     ∧ Semver.patch a = Semver.patch b
     ∧ Semver.prerelease a ≠ [] ∧ Semver.prerelease b = []).

End Spec.

(** ** Sample inputs *)

Module Examples.
Import Zod Sdk.

Definition obj (entries : list (string * value)) : value :=
  VObj (list_to_map entries).

(** A stand-in for the schema translation: the declaration of a section,
    an object from field names to type names, becomes an object schema
    with these properties. *)
Definition toJsonSchema (section : value) : result string (gmap string value) :=
  match section with
  | VObj o =>
      match o !! "schema" with
      | Some (VObj declaration) =>
          Ok (list_to_map [("type", VStr "object");
                           ("properties", VObj declaration)])
      | _ => Err "a schema declaration is expected"
      end
  | _ => Err "a section is expected"
  end.

Definition json_schema (properties : list (string * value)) : value :=
  obj [("type", VStr "object"); ("properties", obj properties)].

(** After [integrations/slack/integration.definition.ts], with small
    sections. *)
Definition slack : gmap string value :=
  list_to_map
    [("name", VStr "slack");
     ("title", VStr "Slack");
     ("description",
        VStr "This integration allows your bot to interact with Slack.");
     ("version", VStr "0.2.0");
     ("icon", VStr "icon.svg");
     ("readme", VStr "readme.md");
     ("configuration", obj [("schema", obj [("botToken", VStr "string")])]);
     ("states",
        obj [("credentials", obj [("type", VStr "integration");
                                  ("schema", obj [("accessToken", VStr "string")])])]);
     ("channels",
        obj [("channel",
              obj [("title", VStr "Channel");
                   ("messages", obj [("text", obj [("schema", obj [("text", VStr "string")])])]);
                   ("conversation",
                      obj [("tags", obj [("id", obj [])]);
                           ("creation", obj [("enabled", VBool true);
                                             ("requiredTags", VArr [VStr "id"])])])])]);
     ("actions",
        obj [("addReaction",
              obj [("input", obj [("schema", obj [("name", VStr "string")])]);
                   ("output", obj [("schema", obj [])])])]);
     ("events",
        obj [("reactionAdded",
              obj [("title", VStr "Reaction Added");
                   ("schema", obj [("reaction", VStr "string")])])]);
     ("secrets", VArr [VStr "SENTRY_DSN"]);
     ("user", obj [("tags", obj [("id", obj [])])])].

Definition slack_constructed : IntegrationDefinition :=
  {| name := VStr "slack";
     version := VStr "0.2.0";
     icon := VStr "icon.svg";
     readme := VStr "readme.md";
     title := VStr "Slack";
     description :=
       VStr "This integration allows your bot to interact with Slack.";
     configuration := obj [("schema", json_schema [("botToken", VStr "string")])];
     events :=
       obj [("reactionAdded",
             obj [("title", VStr "Reaction Added");
                  ("schema", json_schema [("reaction", VStr "string")])])];
     actions :=
       obj [("addReaction",
             obj [("input", obj [("schema", json_schema [("name", VStr "string")])]);
                  ("output", obj [("schema", json_schema [])])])];
     channels :=
       obj [("channel",
             obj [("title", VStr "Channel");
                  ("messages",
                     obj [("text", obj [("schema", json_schema [("text", VStr "string")])])]);
                  ("conversation",
                     obj [("tags", obj [("id", obj [])]);
                          ("creation", obj [("enabled", VBool true);
                                            ("requiredTags", VArr [VStr "id"])])])])];
     states :=
       obj [("credentials",
             obj [("type", VStr "integration");
                  ("schema", json_schema [("accessToken", VStr "string")])])];
     user := obj [("tags", obj [("id", obj [])])];
     secrets := VArr [VStr "SENTRY_DSN"] |}.

(** Definitions that construction rejects, and the smallest one it
    accepts. *)
Definition minimal : gmap string value :=
  list_to_map [("name", VStr "hello"); ("version", VStr "0.0.1")].

Definition minimal_constructed : IntegrationDefinition :=
  {| name := VStr "hello"; version := VStr "0.0.1";
     icon := VUndefined; readme := VUndefined; title := VUndefined;
     description := VUndefined; configuration := VUndefined;
     events := VUndefined; actions := VUndefined; channels := VUndefined;
     states := VUndefined; user := VUndefined; secrets := VUndefined |}.

(** A configuration with a key the manifest schema does not declare. *)
Definition annotated : gmap string value :=
  list_to_map
    [("name", VStr "hello"); ("version", VStr "0.0.1");
     ("configuration",
        obj [("schema", obj [("token", VStr "string")]); ("ui", obj [])])].




Definition numbered_name : gmap string value :=
  list_to_map [("name", VNum 7); ("version", VStr "0.2.0")].



Definition flagged : gmap string value := <["public" := VBool true]> minimal.

Definition null_configuration : gmap string value :=
  <["configuration" := VNull]> minimal.

Definition null_secrets : gmap string value := <["secrets" := VNull]> minimal.

Definition numbered_secret : gmap string value :=
  <["secrets" := VArr [VStr "SENTRY_DSN"; VNum 5]]> minimal.

Definition odd_state : gmap string value :=
  <["states" := obj [("session", obj [("type", VStr "bot");
                                       ("schema", obj [])])]]> minimal.

Definition mute_channel : gmap string value :=
  <["channels" := obj [("channel", obj [("title", VStr "Channel")])]]> minimal.




(** Three packages of the workspace, the last one private, and a user
    who answers the first prompt and cancels the second. *)
Import Depsynky.

Definition client : PnpmPackage :=
  mkPackage "packages/client/package.json"
    (mkPackageJson "@botpress/client" "0.1.1" false ∅).

Definition cli : PnpmPackage :=
  mkPackage "packages/cli/package.json"
    (mkPackageJson "@botpress/cli" "0.2.1" false
       (list_to_map [("@botpress/client", "0.1.1")])).

Definition bots : PnpmPackage :=
  mkPackage "bots/hello/package.json"
    (mkPackageJson "hello-bot" "0.0.1" true
       (list_to_map [("@botpress/client", "0.1.1")])).

Definition targets : list PnpmPackage := [client; bots; cli].

Definition current : gmap string string :=
  list_to_map [("@botpress/client", "0.1.1"); ("hello-bot", "0.0.1");
               ("@botpress/cli", "0.2.1")].

Definition disk : gmap string PackageJson :=
  list_to_map [(path client, content client); (path bots, content bots);
               (path cli, content cli)].

(** Stand-ins for [utils.pnpm.findReferences] and [utils.pnpm.versions]
    on this workspace: the client and the packages that depend on it, and
    their versions by name. *)
Definition workspace_references (rootDir pkgName : string)
    : M (PnpmPackage * list PnpmPackage) :=
  mret (client, [bots; cli]).

Definition workspace_versions (pkgs : list PnpmPackage) : gmap string string :=
  list_to_map ((λ pkg, (name (content pkg), version (content pkg))) <$> pkgs).

Definition cancelling : World := mkWorld disk [patch] [] [].
Definition answering : World := mkWorld disk [patch; none] [] [].

(** The world and the target versions once the client has been bumped
    and the prompt for the CLI has been answered with none. *)
Definition bumped : World :=
  mkWorld (<[path client := set_version "0.1.2" (content client)]> disk) []
          [("@botpress/client", "0.1.1"); ("@botpress/cli", "0.2.1")]
          [path client].

Definition bumped_versions : gmap string string :=
  <["@botpress/client" := "0.1.2"]> current.

(** The world after the turn of the client. *)
Definition client_bumped : World :=
  mkWorld (<[path client := set_version "0.1.2" (content client)]> disk) [none]
          [("@botpress/client", "0.1.1")] [path client].

(** A package whose version is no semantic version, and the world in
    which it is answered with patch. *)
Definition draft : PnpmPackage :=
  mkPackage "packages/draft/package.json"
    (mkPackageJson "@botpress/draft" "workspace:*" false ∅).

Definition drafting : World :=
  mkWorld (list_to_map [(path draft, content draft)]) [patch] [] [].

Definition drafted : World :=
  mkWorld (list_to_map [(path draft, content draft)]) []
          [("@botpress/draft", "workspace:*")] [].

(** The world when the second prompt has been cancelled. *)
Definition cancelled : World :=
  mkWorld (<[path client := set_version "0.1.2" (content client)]> disk) []
          [("@botpress/client", "0.1.1"); ("@botpress/cli", "0.2.1")]
          [path client].

End Examples.

(** * Facts *)

(** ** The error monad and traversals *)

Lemma mapM_result_ok {E A B} (f : A → result E B) (g : A → B) (l : list A) :
  (∀ x, x ∈ l → f x = Ok (g x)) → mapM f l = Ok (g <$> l).
Proof.
  induction l as [|x l IH]; intros H; [done|].
  cbn. rewrite (H x) by left. cbn.
  rewrite IH by (intros y Hy; apply H; by right). done.
Qed.

Lemma mapM_result_err {E A B} (f : A → result E B) (l : list A) x e :
  x ∈ l → f x = Err e → ∃ e', mapM f l = Err e'.
Proof.
  induction l as [|y l IH]; intros Hx Hf; [by apply elem_of_nil in Hx|].
  apply elem_of_cons in Hx as [->|Hx].
  - exists e. cbn. by rewrite Hf.
  - cbn. destruct (f y) as [b|e1]; cbn; [|by eexists].
    destruct (IH Hx Hf) as [e' ->]. by eexists.
Qed.

Lemma list_to_map_lookup_iff {A} (l : list (string * A)) (m : gmap string A) :
  NoDup l.*1 → (∀ k v, (k, v) ∈ l ↔ m !! k = Some v) → list_to_map l = m.
Proof.
  intros Hnd H. apply map_eq. intros k.
  destruct (m !! k) as [v|] eqn:Hk.
  - apply elem_of_list_to_map_1; [done|]. by apply H.
  - apply not_elem_of_list_to_map_1. intros Hin.
    apply list_elem_of_fmap in Hin as [[k' v] [-> Hin]].
    apply H in Hin. simpl in *. congruence.
Qed.



(** Conversely, the result of a traversal has the keys of the object
    traversed and, at each, the result for the value there. *)
Lemma mapM_entries_inv {E A B} (f : A → result E B) (l : list (string * A)) l' :
  mapM (λ kv, pair kv.1 <$> f kv.2) l = Ok l' →
  Forall2 (λ kv kv', kv'.1 = kv.1 ∧ f kv.2 = Ok kv'.2) l l'.
Proof.
  revert l'. induction l as [|[k v] l IH]; intros l' H.
  - cbn in H. injection H as <-. constructor.
  - cbn in H. destruct (f v) as [b|e] eqn:Hf; cbn in H; [|done].
    destruct (mapM _ l) as [l0|e]; cbn in H; [|done].
    injection H as <-. constructor; [by split|by apply IH].
Qed.

Lemma map_traverse_inv {E A B} (f : A → result E B) (m : gmap string A)
    (m' : gmap string B) :
  map_traverse f m = Ok m' →
  ∀ k, option_Forall2 (λ v v', f v = Ok v') (m !! k) (m' !! k).
Proof.
  unfold map_traverse. intros H k.
  destruct (mapM _ (map_to_list m)) as [l'|e] eqn:Hl; cbn in H; [|done].
  injection H as <-. apply mapM_entries_inv in Hl.
  assert (l'.*1 = (map_to_list m).*1) as Hfst.
  { clear -Hl. induction Hl as [|?? ?? [? _]]; cbn; [done|]. congruence. }
  assert (NoDup l'.*1) as Hnd by (rewrite Hfst; apply NoDup_fst_map_to_list).
  destruct (m !! k) as [v|] eqn:Hk.
  - apply elem_of_map_to_list in Hk.
    apply list_elem_of_lookup in Hk as [i Hi].
    destruct (Forall2_lookup_l _ _ _ _ _ Hl Hi) as ([k' v'] & Hi' & Hkk & Hf).
    simpl in *. subst k'.
    rewrite (elem_of_list_to_map_1 l' k v'); [by constructor|done|].
    by eapply list_elem_of_lookup_2.
  - rewrite (not_elem_of_list_to_map_1 l' k); [constructor|].
    rewrite Hfst. intros Hin. apply list_elem_of_fmap in Hin as [[k' v] [-> Hin]].
    apply elem_of_map_to_list in Hin. simpl in *. congruence.
Qed.


Lemma map_traverse_err_origin {E A B} (f : A → result E B) (m : gmap string A) e :
  map_traverse f m = Err e → ∃ k v, m !! k = Some v ∧ f v = Err e.
Proof.
  unfold map_traverse.
  assert (∀ l : list (string * A),
    mapM (λ kv, pair kv.1 <$> f kv.2) l = Err e → ∃ kv, kv ∈ l ∧ f kv.2 = Err e) as H.
  { induction l as [|[k v] l IH]; [done|]. cbn.
    destruct (f v) as [b|e0] eqn:Hf; cbn.
    - destruct (mapM _ l) as [l'|e1]; cbn; [done|]. intros [= ->].
      destruct IH as (kv & ? & ?); [done|]. exists kv. split; [by right|done].
    - intros [= ->]. exists (k, v). split; [left|done]. }
  destruct (mapM _ (map_to_list m)) as [l'|e1] eqn:Hl; cbn; [done|]. intros [= ->].
  destruct (H _ Hl) as ([k v] & Hin%elem_of_map_to_list & Hf). eauto.
Qed.

Lemma map_traverse_err {E A B} (f : A → result E B) (m : gmap string A) k v e :
  m !! k = Some v → f v = Err e → ∃ e', map_traverse f m = Err e'.
Proof.
  intros Hk Hf. unfold map_traverse.
  destruct (mapM_result_err (λ kv : string * A, pair kv.1 <$> f kv.2)
              (map_to_list m) (k, v) e) as [e' ->].
  - by apply elem_of_map_to_list.
  - cbn. by rewrite Hf.
  - by eexists.
Qed.

(** ** The schema library *)

Arguments Zod.pair_entry : simpl never.
Arguments Sdk.integrationDefinitionSchema : simpl never.
Arguments Sdk.channelDefinitionSchema : simpl never.
Arguments Sdk.eventDefinitionSchema : simpl never.
Arguments Sdk.actionDefinitionSchema : simpl never.
Arguments Sdk.stateDefinitionSchema : simpl never.
Arguments Sdk.messageDefinitionSchema : simpl never.
Arguments Sdk.configurationDefinitionSchema : simpl never.
Arguments Sdk.tagDefinitionSchema : simpl never.
Arguments Sdk.schemaSchema : simpl never.
Arguments Sdk.nonEmptyDict : simpl never.

Section ZodFacts.
Import Zod Spec.

Lemma ZodType_nested_ind (P : ZodType → Prop) :
  P ZodString → P ZodBoolean →
  (∀ lit, P (ZodLiteral lit)) →
  (∀ values, P (ZodEnum values)) →
  (∀ options, Forall P options → P (ZodUnion options)) →
  (∀ element, P element → P (ZodArray element)) →
  (∀ valueType, P valueType → P (ZodRecord valueType)) →
  (∀ shape uk, Forall (λ ks, P ks.2) shape → P (ZodObject shape uk)) →
  (∀ inner, P inner → P (ZodOptional inner)) →
  (∀ inner chk msg, P inner → P (ZodEffects inner chk msg)) →
  ∀ s, P s.
Proof.
  intros HS HB HL HE HU HA HR HO HOp HEf.
  fix IH 1. intros [ | | lit | vs | os | e | t | sh uk | i | i chk msg].
  - exact HS.
  - exact HB.
  - apply HL.
  - apply HE.
  - apply HU. induction os as [|o os IHos]; constructor; [apply IH|exact IHos].
  - apply HA, IH.
  - apply HR, IH.
  - apply HO. induction sh as [|[k s] sh IHsh]; constructor; [apply IH|exact IHsh].
  - apply HOp, IH.
  - apply HEf, IH.
Qed.

Lemma omap_map {A B C} (f : A → B) (g : B → option C) (l : list A) :
  omap g (map f l) = omap (λ x, g (f x)) l.
Proof. induction l as [|x l IH]; [done|]. cbn. by rewrite IH. Qed.

Lemma mergeArray_OK (l : list value) : mergeArray (OK <$> l) = OK (VArr l).
Proof.
  assert (concat (map issues (OK <$> l)) = []) as Hi.
  { induction l; [done|]. done. }
  assert (mapM output (OK <$> l) = Some l) as Ho.
  { induction l as [|x l IH]; [done|]. cbn. cbn in IH. by rewrite IH. }
  unfold mergeArray. by rewrite Hi, Ho.
Qed.

Lemma mergeObjectSync_OK (pairs : list Pair) :
  Forall (λ p, ∃ v, pair_value p = OK v) pairs →
  mergeObjectSync pairs = OK (VObj (list_to_map (omap pair_entry pairs))).
Proof.
  intros H. unfold mergeObjectSync, OK. f_equal.
  - induction H as [|p ps [v Hv] _ IH]; [done|]. cbn. by rewrite Hv, IH.
  - assert (forallb (λ p, bool_decide (is_Some (output (pair_value p)))) pairs = true)
      as ->; [|done].
    induction H as [|p ps [v Hv] _ IH]; [done|]. cbn. by rewrite Hv, IH.
Qed.

Lemma scalar_parse s path v :
  scalar s = true → _parse s path v = OK v ∨ isValid (_parse s path v) = false.
Proof.
  destruct s; try done; intros _; destruct v; cbn; auto.
  - destruct (String.eqb s lit); auto.
  - case_bool_decide; auto.
Qed.

Lemma union_conforms (options : list ZodType) path v :
  forallb scalar options = true →
  Exists (λ o, _parse o path v = OK v) options →
  find isValid (map (λ o, _parse o path v) options) = Some (OK v).
Proof.
  intros Hs Hex. induction options as [|o os IH]; [by inversion Hex|].
  cbn in Hs. apply andb_true_iff in Hs as [Ho Hos]. cbn.
  destruct (scalar_parse o path v Ho) as [->|Hnv]; [done|].
  rewrite Hnv. apply IH; [done|].
  inversion Hex as [?? Hhd|]; subst; [|done]. by rewrite Hhd in Hnv.
Qed.

Lemma known_entry (m : gmap string value) k :
  pair_entry (mkPair k (OK (prop m k)) (bool_decide (is_Some (m !! k))))
  = pair k <$> m !! k.
Proof.
  unfold pair_entry, prop. cbn. destruct (m !! k) as [x|] eqn:Hk; cbn.
  - by rewrite andb_false_r.
  - done.
Qed.

(** Parsing a value that has exactly the shape of the schema returns the
    value itself, with no issue. *)
Lemma parse_conforms s : ∀ v path, conforms s v → _parse s path v = OK v.
Proof.
  induction s as [ | | lit | vs | os IH | e IH | t IH | sh uk IH | i IH | i chk msg IH]
    using ZodType_nested_ind; intros v path Hc; cbn in Hc.
  - by destruct Hc as [x ->].
  - by destruct Hc as [b ->].
  - subst. cbn. by rewrite String.eqb_refl.
  - destruct Hc as (x & -> & Hin). cbn. by rewrite bool_decide_eq_true_2.
  - destruct Hc as [Hs Hany]. cbn.
    rewrite union_conforms; [done..|].
    clear Hs. induction IH as [|o os Ho _ IHos]; [done|].
    destruct Hany as [Hc|Hany]; [left; by apply Ho|right; by apply IHos].
  - destruct Hc as (l & -> & Hl). cbn.
    rewrite (imap_ext _ (const OK)).
    + rewrite imap_const. apply mergeArray_OK.
    + intros j x Hj. unfold const. apply IH. rewrite Forall_forall in Hl. apply Hl.
      by eapply list_elem_of_lookup_2.
  - destruct Hc as (m & -> & Hm). cbn.
    rewrite (map_ext_in _ (λ kv, mkPair kv.1 (OK kv.2) false)).
    2:{ intros [k x] Hin%list_elem_of_In%elem_of_map_to_list. cbn.
        f_equal. apply IH. by apply Hm in Hin as [_ ?]. }
    rewrite mergeObjectSync_OK.
    2:{ apply Forall_forall. intros p Hp%list_elem_of_fmap.
        destruct Hp as (kv & -> & _). by eexists. }
    do 2 f_equal. rewrite <- (list_to_map_to_list m) at 2. f_equal.
    rewrite omap_map.
    assert (∀ l : list (string * value),
      Forall (λ kv, kv.2 ≠ VUndefined) l →
      omap (λ kv, pair_entry (mkPair kv.1 (OK kv.2) false)) l = l) as Hid.
    { induction 1 as [|[k x] l Hx _ IHl]; [done|]. cbn.
      unfold pair_entry at 1. cbn. destruct x; try done; cbn; by rewrite IHl. }
    apply Hid. apply Forall_forall. intros [k x] Hin%elem_of_map_to_list.
    by apply Hm in Hin as [? _].
  - destruct Hc as (m & -> & Hnd & Hfields & Huk). cbn.
    assert (Forall (λ ks, conforms ks.2 (prop m ks.1)) sh) as Hf.
    { clear -Hfields. induction sh as [|ks sh IHsh]; [done|].
      destruct Hfields. constructor; auto. }
    clear Hfields.
    rewrite (map_ext_in _ (λ ks, mkPair ks.1 (OK (prop m ks.1))
                                    (bool_decide (is_Some (m !! ks.1))))).
    2:{ intros ks Hin%list_elem_of_In. f_equal.
        rewrite Forall_forall in IH, Hf. by apply IH, Hf. }
    rewrite mergeObjectSync_OK.
    2:{ apply Forall_app. split; apply Forall_forall.
        - intros p (ks & -> & _)%list_elem_of_fmap. by eexists.
        - destruct uk; [intros ? Hin; by apply elem_of_nil in Hin|].
          intros p (kv & -> & _)%list_elem_of_fmap. by eexists. }
    do 2 f_equal. rewrite omap_app. apply list_to_map_lookup_iff.
    + rewrite fmap_app. apply NoDup_app. split_and!.
      * rewrite omap_map.
        clear -Hnd. induction sh as [|[k s] sh IHsh]; [constructor|].
        cbn in *. apply NoDup_cons in Hnd as [Hk Hnd]. rewrite known_entry.
        destruct (m !! k) as [x|]; cbn; [|by apply IHsh].
        apply NoDup_cons. split; [|by apply IHsh].
        intros Hin. apply Hk. clear -Hin.
        apply list_elem_of_fmap in Hin as ([k' x'] & -> & Hin).
        apply list_elem_of_omap in Hin as ([k1 s1] & Hin & Heq).
        rewrite known_entry in Heq. cbn in Heq.
        destruct (m !! k1); simplify_eq/=. apply list_elem_of_fmap.
        by exists (k', s1).
      * intros k Hk1 Hk2.
        apply list_elem_of_fmap in Hk1 as ([k1 x1] & -> & Hk1).
        apply list_elem_of_omap in Hk1 as (p0 & Hin0 & Heq).
        apply list_elem_of_fmap in Hin0 as ([k0 s0] & -> & Hin0).
        rewrite known_entry in Heq. cbn in Heq.
        destruct (m !! k0); simplify_eq/=.
        destruct uk; [by apply elem_of_nil in Hk2|].
        apply list_elem_of_fmap in Hk2 as ([k2 x2] & Hk & Hk2). cbn in Hk. subst k2.
        apply list_elem_of_omap in Hk2 as (p & Hp & Heq).
        apply list_elem_of_fmap in Hp as ([k3 x3] & -> & Hp).
        apply list_elem_of_filter in Hp as [Hns _]. cbn in Hns.
        unfold pair_entry in Heq. cbn in Heq.
        destruct (is_undefined x3); simplify_eq/=.
        unfold in_shape in Hns. apply bool_decide_eq_false in Hns. apply Hns.
        apply list_elem_of_fmap. by exists (k1, s0).
      * destruct uk; [constructor|].
        rewrite omap_map.
        assert (∀ l : list (string * value), NoDup l.*1 →
          NoDup (omap (λ kv, pair_entry (mkPair kv.1 (OK kv.2) false)) l).*1) as Hsub.
        { clear. induction l as [|[k x] l IHl]; [constructor|]. cbn.
          intros [Hk Hl]%NoDup_cons. unfold pair_entry at 1. cbn.
          destruct (is_undefined x); cbn; [by apply IHl|].
          apply NoDup_cons. split; [|by apply IHl]. intros Hin. apply Hk.
          apply list_elem_of_fmap in Hin as ([k' x'] & -> & Hin).
          apply list_elem_of_omap in Hin as ([k1 x1] & Hin & Heq).
          unfold pair_entry in Heq. cbn in Heq.
          destruct (is_undefined x1); simplify_eq/=.
          apply list_elem_of_fmap. by exists (k', x'). }
        apply Hsub. apply NoDup_fmap_fst.
        -- intros k x1 x2 [_ H1%elem_of_map_to_list]%list_elem_of_filter
             [_ H2%elem_of_map_to_list]%list_elem_of_filter. congruence.
        -- apply NoDup_filter, NoDup_map_to_list.
    + intros k x. rewrite elem_of_app. split.
      * intros [Hin|Hin].
        -- apply list_elem_of_omap in Hin as (p & Hp & Heq).
           apply list_elem_of_fmap in Hp as ([k0 s0] & -> & _).
           rewrite known_entry in Heq. cbn in Heq.
           destruct (m !! k0) eqn:?; simplify_eq/=. done.
        -- destruct uk; [by apply elem_of_nil in Hin|].
           apply list_elem_of_omap in Hin as (p & Hp & Heq).
           apply list_elem_of_fmap in Hp as ([k3 x3] & -> & Hp).
           apply list_elem_of_filter in Hp as [_ Hp%elem_of_map_to_list].
           unfold pair_entry in Heq. cbn in Heq.
           destruct (is_undefined x3); simplify_eq/=. done.
      * intros Hk. destruct (decide (k ∈ sh.*1)) as [Hin|Hnin].
        -- left. apply list_elem_of_fmap in Hin as ([k0 s0] & -> & Hin).
           apply list_elem_of_omap. eexists. split.
           ++ apply list_elem_of_fmap. by exists (k0, s0).
           ++ rewrite known_entry. cbn in *. by rewrite Hk.
        -- destruct uk.
           { exfalso. apply Hnin.
             assert (k ∈ dom m) as Hd by (apply elem_of_dom; eauto).
             apply Huk in Hd. by apply elem_of_list_to_set in Hd. }
           right. apply list_elem_of_omap.
           exists (mkPair k (OK x) false). split.
           ++ apply list_elem_of_fmap. exists (k, x). split; [done|].
              apply list_elem_of_filter. split.
              ** cbn. unfold in_shape. by apply bool_decide_eq_false.
              ** by apply elem_of_map_to_list.
           ++ unfold pair_entry. cbn. destruct x; try done.
              apply Huk in Hk. cbn in Hk. unfold in_shape in Hk.
              rewrite bool_decide_eq_false_2 in Hk by done. by specialize (Hk eq_refl).
  - destruct Hc as [->|Hc]; [done|].
    specialize (IH v path Hc). by destruct v.
  - destruct Hc as [Hc Hr]. cbn. rewrite (IH v path Hc). cbn. by rewrite Hr.
Qed.

Lemma elem_of_concat {A} (x : A) (ls : list (list A)) :
  x ∈ concat ls ↔ ∃ l, x ∈ l ∧ l ∈ ls.
Proof.
  induction ls as [|l ls IH]; cbn.
  - split; [by intros ?%elem_of_nil|by intros (? & _ & ?%elem_of_nil)].
  - rewrite elem_of_app, IH. split.
    + intros [?|(l' & ? & ?)]; [exists l; split; [done|left]|].
      exists l'. split; [done|by right].
    + intros (l' & ? & [->|?]%elem_of_cons); [by left|right; eauto].
Qed.

Lemma mergeArray_aborted (results : list ParseReturn) :
  (∀ r, r ∈ results → output r = None → issues r ≠ []) →
  output (mergeArray results) = None → issues (mergeArray results) ≠ [].
Proof.
  unfold mergeArray. cbn. induction results as [|r rs IH]; intros H Hn; [done|].
  cbn in *. destruct (output r) as [x|] eqn:Hr; cbn in Hn.
  - intros [_ Hrs]%app_eq_nil. revert Hrs. apply IH.
    + intros r' Hr'. apply H. by right.
    + by destruct (mapM output rs).
  - intros [Hi _]%app_eq_nil. revert Hi. apply H; [left|done].
Qed.

Lemma mergeObjectSync_aborted (pairs : list Pair) :
  (∀ p, p ∈ pairs → output (pair_value p) = None → issues (pair_value p) ≠ []) →
  output (mergeObjectSync pairs) = None → issues (mergeObjectSync pairs) ≠ [].
Proof.
  unfold mergeObjectSync. cbn. induction pairs as [|p ps IH]; intros H Hn; [done|].
  cbn in *. destruct (output (pair_value p)) as [x|] eqn:Hp.
  - rewrite bool_decide_eq_true_2 in Hn by eauto. cbn in Hn.
    intros [_ Hps]%app_eq_nil. revert Hps. apply IH.
    + intros p' Hp'. apply H. by right.
    + by destruct (forallb _ ps).
  - intros [Hi _]%app_eq_nil. revert Hi. apply H; [left|done].
Qed.

(** A parse that aborts has reported at least one issue. *)
Lemma aborted_has_issue s :
  ∀ v path, output (_parse s path v) = None → issues (_parse s path v) ≠ [].
Proof.
  induction s as [ | | lit | vs | os IH | e IH | t IH | sh uk IH | i IH | i chk msg IH]
    using ZodType_nested_ind; intros v path.
  - by destruct v.
  - by destruct v.
  - destruct v; try done. cbn. by destruct (String.eqb s lit).
  - destruct v; try done. cbn. by case_bool_decide.
  - cbn. destruct (find isValid _) as [r|] eqn:Hv.
    { apply find_some in Hv as [_ Hv]. by destruct r as [[|??] [?|]]. }
    destruct (find isDirty _) as [r|] eqn:Hd; [|done].
    apply find_some in Hd as [_ Hd]. by destruct r as [[|??] [?|]].
  - destruct v; try done. cbn. apply mergeArray_aborted.
    intros r (j & x & -> & _)%elem_of_lookup_imap_1. apply IH.
  - destruct v; try done. cbn. apply mergeObjectSync_aborted.
    intros p (kv & -> & _)%list_elem_of_fmap. apply IH.
  - destruct v; try done. cbn. apply mergeObjectSync_aborted.
    intros p [Hp|Hp]%elem_of_app.
    + apply list_elem_of_fmap in Hp as (ks & -> & Hks).
      rewrite Forall_forall in IH. by apply IH.
    + destruct uk; [by apply elem_of_nil in Hp|].
      by apply list_elem_of_fmap in Hp as (kv & -> & _).
  - destruct v; try done; apply IH.
  - cbn. destruct (output (_parse i path v)) as [x|] eqn:Hx.
    + destruct (chk x); cbn; [|done]. by rewrite Hx.
    + intros _. by apply IH.
Qed.

(** Every issue is about a position: its path extends the path of the
    parse by steps that lead, in the schema and in the value alike, to a
    schema that reports this very issue for the value found there. *)
Lemma issue_located s :
  ∀ v path i, i ∈ issues (_parse s path v) →
  ∃ rel s', issue_path i = path ++ rel ∧ schema_at s rel s' ∧
            i ∈ issues (_parse s' (path ++ rel) (value_at v rel)).
Proof.
  assert (∀ s v path i, issue_path i = path → i ∈ issues (_parse s path v) →
    ∃ rel s', issue_path i = path ++ rel ∧ schema_at s rel s' ∧
              i ∈ issues (_parse s' (path ++ rel) (value_at v rel))) as Hhere.
  { intros s0 v path i Hp Hi. exists [], s0. rewrite app_nil_r.
    split_and!; [done|constructor|done]. }
  assert (∀ c path (i : ZodIssue), i ∈ [Issue c path] → issue_path i = path) as Hone.
  { by intros c path i ->%list_elem_of_singleton. }
  induction s as [ | | lit | vs | os IH | e IH | t IH | sh uk IH | i IH | i chk msg IH]
    using ZodType_nested_ind; intros v path iss Hin.
  - apply Hhere; [|done]. destruct v; cbn in Hin; try by eapply Hone.
    by apply elem_of_nil in Hin.
  - apply Hhere; [|done]. destruct v; cbn in Hin; try by eapply Hone.
    by apply elem_of_nil in Hin.
  - apply Hhere; [|done]. destruct v; cbn in Hin; try by eapply Hone.
    destruct (String.eqb s lit); cbn in Hin;
      [by apply elem_of_nil in Hin|by eapply Hone].
  - apply Hhere; [|done]. destruct v; cbn in Hin; try by eapply Hone.
    case_bool_decide; cbn in Hin; [by apply elem_of_nil in Hin|by eapply Hone].
  - pose proof Hin as Hin0. cbn in Hin. destruct (find isValid _) as [r|] eqn:Hv.
    { apply find_some in Hv as [_ Hv]. destruct r as [[|??] [?|]]; try done.
      by apply elem_of_nil in Hin. }
    destruct (find isDirty _) as [r|] eqn:Hd.
    + apply find_some in Hd as [Hr _].
      apply list_elem_of_In, list_elem_of_fmap in Hr as (o & -> & Ho).
      rewrite Forall_forall in IH.
      destruct (IH o Ho v path iss Hin) as (rel & s' & Hp & Hat & Hi).
      exists rel, s'. split_and!; [done| |done]. by eapply at_option.
    + apply Hhere; [|done]. cbn in Hin. by eapply Hone.
  - destruct v; cbn in Hin; try (apply Hhere; [by eapply Hone|done]).
    unfold mergeArray in Hin. cbn in Hin.
    apply elem_of_concat in Hin as (is' & Hin & His).
    apply list_elem_of_fmap in His as (r & -> & Hr).
    apply elem_of_lookup_imap_1 in Hr as (j & x & -> & Hx).
    destruct (IH x (path ++ [PIdx j]) iss Hin) as (rel & s' & Hp & Hat & Hi).
    exists (PIdx j :: rel), s'. rewrite <- app_assoc in Hp, Hi. cbn in Hp, Hi.
    split_and!; [done|by constructor|]. cbn. by rewrite Hx.
  - destruct v; cbn in Hin; try (apply Hhere; [by eapply Hone|done]).
    unfold mergeObjectSync in Hin. cbn in Hin.
    apply elem_of_concat in Hin as (is' & Hin & His).
    apply list_elem_of_fmap in His as (p & -> & Hp).
    apply list_elem_of_fmap in Hp as ([k x] & -> & Hkx%elem_of_map_to_list).
    cbn in Hin.
    destruct (IH x (path ++ [PKey k]) iss Hin) as (rel & s' & Hp & Hat & Hi).
    exists (PKey k :: rel), s'. rewrite <- app_assoc in Hp, Hi. cbn in Hp, Hi.
    split_and!; [done|by constructor|]. cbn. unfold prop. by rewrite Hkx.
  - destruct v; cbn in Hin; try (apply Hhere; [by eapply Hone|done]).
    unfold mergeObjectSync in Hin. cbn in Hin.
    apply elem_of_concat in Hin as (is' & Hin & His).
    apply list_elem_of_fmap in His as (p & -> & Hp).
    apply elem_of_app in Hp as [Hp|Hp].
    + apply list_elem_of_fmap in Hp as ([k s0] & -> & Hks). cbn in Hin.
      rewrite Forall_forall in IH.
      destruct (IH _ Hks (prop m k) (path ++ [PKey k]) iss Hin)
        as (rel & s' & Hp & Hat & Hi).
      exists (PKey k :: rel), s'. rewrite <- app_assoc in Hp, Hi. cbn in Hp, Hi.
      split_and!; [done|by econstructor|done].
    + destruct uk; [by apply elem_of_nil in Hp|].
      apply list_elem_of_fmap in Hp as (kv & -> & _).
      by apply elem_of_nil in Hin.
  - assert (iss ∈ issues (_parse i path v)) as Hin'.
    { destruct v; try done. by apply elem_of_nil in Hin. }
    destruct (IH v path iss Hin') as (rel & s' & Hp & Hat & Hi).
    exists rel, s'. split_and!; [done|by constructor|done].
  - cbn in Hin.
    assert (iss ∈ issues (_parse i path v) ∨ issue_path iss = path) as [Hin'|Hp].
    { destruct (output (_parse i path v)) as [x|]; [|by left].
      destruct (chk x); [by left|]. cbn in Hin.
      apply elem_of_app in Hin as [?|?]; [by left|right; by eapply Hone]. }
    + destruct (IH v path iss Hin') as (rel & s' & Hp & Hat & Hi).
      exists rel, s'. split_and!; [done|by constructor|done].
    + by apply Hhere.
Qed.

(** *** Reading a parse off its parts *)

Lemma parse_Ok s v p :
  parse s v = Ok p ↔ issues (_parse s [] v) = [] ∧ output (_parse s [] v) = Some p.
Proof.
  unfold parse. destruct (_parse s [] v) as [[|i errs] [x|]]; cbn;
    (split; [intros [=]|intros [[=] [=]]]; by subst).
Qed.

Lemma parse_Err s v errs :
  parse s v = Err errs ↔ errs = issues (_parse s [] v) ∧ errs ≠ [].
Proof.
  unfold parse. pose proof (aborted_has_issue s v []) as Hab.
  destruct (_parse s [] v) as [[|i errs'] [x|]]; cbn in *.
  - split; [done|]. by intros [-> ?].
  - by destruct Hab.
  - split; [intros [= <-]; by split|]. by intros [-> _].
  - split; [intros [= <-]; by split|]. by intros [-> _].
Qed.

Lemma object_issues shape uk path m i :
  i ∈ issues (_parse (ZodObject shape uk) path (VObj m)) ↔
  ∃ k s, (k, s) ∈ shape ∧ i ∈ issues (_parse s (path ++ [PKey k]) (prop m k)).
Proof.
  cbn. unfold mergeObjectSync. cbn. rewrite elem_of_concat. split.
  - intros (is' & Hin & His).
    apply list_elem_of_fmap in His as (p & -> & Hp).
    apply elem_of_app in Hp as [Hp|Hp].
    + apply list_elem_of_fmap in Hp as ([k s] & -> & Hks). by exists k, s.
    + destruct uk; [by apply elem_of_nil in Hp|].
      apply list_elem_of_fmap in Hp as (kv & -> & _). by apply elem_of_nil in Hin.
  - intros (k & s & Hks & Hin). eexists. split; [done|].
    apply list_elem_of_fmap. eexists. split; [|apply elem_of_app; left].
    2:{ apply list_elem_of_fmap. by exists (k, s). }
    done.
Qed.

Lemma record_issues t path m i :
  i ∈ issues (_parse (ZodRecord t) path (VObj m)) ↔
  ∃ k x, m !! k = Some x ∧ i ∈ issues (_parse t (path ++ [PKey k]) x).
Proof.
  cbn. unfold mergeObjectSync. cbn. rewrite elem_of_concat. split.
  - intros (is' & Hin & His).
    apply list_elem_of_fmap in His as (p & -> & Hp).
    apply list_elem_of_fmap in Hp as ([k x] & -> & Hkx%elem_of_map_to_list).
    by exists k, x.
  - intros (k & x & Hkx & Hin). eexists. split; [done|].
    apply list_elem_of_fmap. eexists. split; [|apply list_elem_of_fmap].
    2:{ exists (k, x). split; [done|]. by apply elem_of_map_to_list. }
    done.
Qed.

Lemma optional_defined s path v :
  is_undefined v = false → _parse (ZodOptional s) path v = _parse s path v.
Proof. by destruct v. Qed.

Lemma effects_valid s chk msg path v p :
  issues (_parse (ZodEffects s chk msg) path v) = [] →
  output (_parse (ZodEffects s chk msg) path v) = Some p →
  issues (_parse s path v) = [] ∧ output (_parse s path v) = Some p ∧ chk p = true.
Proof.
  cbn. destruct (output (_parse s path v)) as [x|] eqn:Hx; [|by rewrite Hx].
  destruct (chk x) eqn:Hc; cbn.
  - rewrite Hx. by intros ? [= <-].
  - by intros [_ ?]%app_eq_nil.
Qed.



Lemma concat_nil_inv {A} (ls : list (list A)) l :
  concat ls = [] → l ∈ ls → l = [].
Proof.
  induction ls as [|l' ls IH]; intros H Hin; [by apply elem_of_nil in Hin|].
  cbn in H. apply app_eq_nil in H as [??].
  apply elem_of_cons in Hin as [->|?]; auto.
Qed.

Lemma forallb_elem_of {A} (f : A → bool) (l : list A) x :
  forallb f l = true → x ∈ l → f x = true.
Proof. rewrite forallb_forall. intros H ?. by apply H, list_elem_of_In. Qed.

(** What a clean merge returns: every pair is clean and the object holds
    the entries of the pairs. *)
Lemma mergeObjectSync_valid pairs p :
  issues (mergeObjectSync pairs) = [] → output (mergeObjectSync pairs) = Some p →
  p = VObj (list_to_map (omap pair_entry pairs)) ∧
  ∀ q, q ∈ pairs → issues (pair_value q) = [] ∧ is_Some (output (pair_value q)).
Proof.
  unfold mergeObjectSync. cbn. intros Hi Ho.
  destruct (forallb _ pairs) eqn:Hall; [|done]. injection Ho as <-.
  split; [done|]. intros q Hq. split.
  - eapply concat_nil_inv; [done|]. apply list_elem_of_fmap. by exists q.
  - eapply forallb_elem_of in Hall; [|done]. by apply bool_decide_eq_true in Hall.
Qed.


Lemma pair_entry_key q k v : pair_entry q = Some (k, v) → k = pair_key q.
Proof.
  unfold pair_entry. destruct (output (pair_value q)); [|done].
  destruct (_ && _); naive_solver.
Qed.

Lemma entries_lookup pairs q vk :
  NoDup (pair_key <$> pairs) → q ∈ pairs → output (pair_value q) = Some vk →
  prop (list_to_map (omap pair_entry pairs)) (pair_key q) = vk.
Proof.
  intros Hnd Hq Hvk. unfold prop.
  induction pairs as [|p ps IH]; [by apply elem_of_nil in Hq|].
  cbn in Hnd. apply NoDup_cons in Hnd as [Hp Hnd].
  assert (∀ k, k ∉ pair_key <$> ps →
            (list_to_map (omap pair_entry ps) : gmap string value) !! k = None) as Hnone.
  { intros k Hk. apply not_elem_of_list_to_map_1. intros Hin. apply Hk.
    apply list_elem_of_fmap in Hin as ([k' x'] & -> & Hin).
    apply list_elem_of_omap in Hin as (q' & Hq' & Heq).
    apply pair_entry_key in Heq as ->. apply list_elem_of_fmap. by exists q'. }
  apply elem_of_cons in Hq as [->|Hq].
  - cbn. destruct (pair_entry p) as [[k v]|] eqn:Hp'; cbn.
    + pose proof (pair_entry_key _ _ _ Hp') as ->. rewrite lookup_insert_eq. cbn.
      unfold pair_entry in Hp'. rewrite Hvk in Hp'.
      destruct (_ && _); naive_solver.
    + rewrite Hnone by done. cbn.
      unfold pair_entry in Hp'. rewrite Hvk in Hp'.
      destruct vk; cbn in Hp'; try done.
  - assert (pair_key p ≠ pair_key q) as Hne.
    { intros Heq. apply Hp. rewrite Heq. apply list_elem_of_fmap. by exists q. }
    cbn. destruct (pair_entry p) as [[k v]|] eqn:Hp'; cbn; [|by apply IH].
    pose proof (pair_entry_key _ _ _ Hp') as ->.
    rewrite lookup_insert_ne by done. by apply IH.
Qed.

Lemma pair_keys {A} (g : string * A → ParseReturn) (b : string * A → bool) l :
  pair_key <$> map (λ kv, mkPair kv.1 (g kv) (b kv)) l = l.*1.
Proof. induction l as [|kv l IH]; [done|]. cbn. by rewrite IH. Qed.

Lemma object_pairs_NoDup (f : string → ZodType → ParseReturn)
    (g : bool) (m : gmap string value) (shape : list (string * ZodType)) :
  NoDup shape.*1 →
  NoDup (pair_key <$>
    (map (λ ks, mkPair ks.1 (f ks.1 ks.2) (bool_decide (is_Some (m !! ks.1)))) shape
     ++ (if g then []
         else map (λ kv, mkPair kv.1 (OK kv.2) false)
                (filter (λ kv, in_shape shape kv.1 = false) (map_to_list m))))).
Proof.
  intros Hnd. rewrite fmap_app. apply NoDup_app. split_and!.
  - by rewrite (pair_keys (λ ks, f ks.1 ks.2) (λ ks, bool_decide (is_Some (m !! ks.1)))).
  - intros k Hk1 Hk2.
    apply list_elem_of_fmap in Hk1 as (q1 & -> & Hk1).
    apply list_elem_of_fmap in Hk1 as ([k1 s1] & -> & Hks).
    destruct g; [by apply elem_of_nil in Hk2|].
    apply list_elem_of_fmap in Hk2 as (q2 & Heq & Hk2).
    apply list_elem_of_fmap in Hk2 as ([k2 x2] & -> & Hkx).
    apply list_elem_of_filter in Hkx as [Hns _]. cbn in *. subst k2.
    unfold in_shape in Hns. apply bool_decide_eq_false in Hns. apply Hns.
    apply list_elem_of_fmap. by exists (k1, s1).
  - destruct g; [constructor|].
    rewrite (pair_keys (λ kv, OK kv.2) (λ _, false)).
    apply (NoDup_fmap_fst (filter _ _)).
    + intros k x1 x2 [_ H1%elem_of_map_to_list]%list_elem_of_filter
        [_ H2%elem_of_map_to_list]%list_elem_of_filter. congruence.
    + apply NoDup_filter, NoDup_map_to_list.
Qed.

(** A clean parse of an object: every declared field parsed cleanly, and
    the result holds, at each declared key, what the field parsed to. *)
Lemma object_valid shape uk path m p :
  NoDup shape.*1 →
  issues (_parse (ZodObject shape uk) path (VObj m)) = [] →
  output (_parse (ZodObject shape uk) path (VObj m)) = Some p →
  ∃ pm, p = VObj pm ∧
    ∀ k s, (k, s) ∈ shape →
      issues (_parse s (path ++ [PKey k]) (prop m k)) = [] ∧
      output (_parse s (path ++ [PKey k]) (prop m k)) = Some (prop pm k).
Proof.
  intros Hnd Hi Ho. cbn in Hi, Ho.
  destruct (mergeObjectSync_valid _ _ Hi Ho) as [-> Hq].
  eexists. split; [done|]. intros k s Hks.
  set (q := mkPair k (_parse s (path ++ [PKey k]) (prop m k))
                   (bool_decide (is_Some (m !! k)))).
  assert (q ∈ map (λ ks, mkPair ks.1 (_parse ks.2 (path ++ [PKey ks.1]) (prop m ks.1))
                          (bool_decide (is_Some (m !! ks.1)))) shape) as Hin.
  { apply list_elem_of_fmap. by exists (k, s). }
  destruct (Hq q) as [Hqi [vk Hqo]]; [apply elem_of_app; by left|].
  split; [done|]. cbn in Hqo. rewrite Hqo. f_equal. symmetry.
  pose proof (object_pairs_NoDup (λ k s, _parse s (path ++ [PKey k]) (prop m k))
                (match uk with strip => true | passthrough => false end) m shape Hnd)
    as Hnd'.
  apply (entries_lookup _ q vk).
  - by destruct uk.
  - apply elem_of_app. by left.
  - done.
Qed.

(** A clean parse of a record: every entry parsed cleanly, and the
    result holds, at each key, what the entry parsed to. *)
Lemma record_valid t path m p :
  issues (_parse (ZodRecord t) path (VObj m)) = [] →
  output (_parse (ZodRecord t) path (VObj m)) = Some p →
  ∃ pm, p = VObj pm ∧
    (∀ k x, m !! k = Some x →
      issues (_parse t (path ++ [PKey k]) x) = [] ∧
      output (_parse t (path ++ [PKey k]) x) = Some (prop pm k)) ∧
    (∀ k, m !! k = None → pm !! k = None).
Proof.
  intros Hi Ho. cbn in Hi, Ho.
  destruct (mergeObjectSync_valid _ _ Hi Ho) as [-> Hq].
  eexists. split; [done|].
  assert (NoDup (pair_key <$>
            map (λ kv, mkPair kv.1 (_parse t (path ++ [PKey kv.1]) kv.2) false)
                (map_to_list m))) as Hnd.
  { rewrite (pair_keys (λ kv, _parse t (path ++ [PKey kv.1]) kv.2) (λ _, false)).
    apply NoDup_fst_map_to_list. }
  split.
  - intros k x Hkx.
    set (q := mkPair k (_parse t (path ++ [PKey k]) x) false).
    assert (q ∈ map (λ kv, mkPair kv.1 (_parse t (path ++ [PKey kv.1]) kv.2) false)
                    (map_to_list m)) as Hin.
    { apply list_elem_of_fmap. exists (k, x). split; [done|].
      by apply elem_of_map_to_list. }
    destruct (Hq q Hin) as [Hqi [vk Hqo]]. split; [done|].
    cbn in Hqo. rewrite Hqo. f_equal. symmetry. by apply (entries_lookup _ q vk).
  - intros k Hk. apply not_elem_of_list_to_map_1. intros Hin.
    apply list_elem_of_fmap in Hin as ([k' x'] & -> & Hin).
    apply list_elem_of_omap in Hin as (q & Hq' & Heq).
    apply pair_entry_key in Heq as ->.
    apply list_elem_of_fmap in Hq' as ([k0 x0] & -> & Hk0%elem_of_map_to_list).
    cbn in Hk. congruence.
Qed.

End ZodFacts.

(** ** Formatting and construction *)

(** Membership in a list that is given. *)
Ltac elem_tac :=
  solve [repeat first [apply list_elem_of_here | apply list_elem_of_further]].

Section SdkFacts.
Import Zod Sdk Spec.

Variable tr : value → result string (gmap string value).









(** *** What formatting returns *)

Lemma format_object (m : gmap string value) f :
  formatIntegrationDefinition tr (VObj m) = Ok f →
  ∃ conf ev ac ch st,
    f = VObj (merged m conf ev ac ch st) ∧
    (if truthy (prop m "configuration") then with_json_schema tr (prop m "configuration")
     else mret VUndefined) = Ok conf ∧
    (if truthy (prop m "events") then mapValues (prop m "events") (with_json_schema tr)
     else mret VUndefined) = Ok ev ∧
    (if truthy (prop m "actions") then mapValues (prop m "actions") (format_action tr)
     else mret VUndefined) = Ok ac ∧
    (if truthy (prop m "channels") then mapValues (prop m "channels") (format_channel tr)
     else mret VUndefined) = Ok ch ∧
    (if truthy (prop m "states") then mapValues (prop m "states") (with_json_schema tr)
     else mret VUndefined) = Ok st.
Proof.
  unfold formatIntegrationDefinition. cbn. intros H.
  destruct (if truthy (prop m "configuration") then _ else _) as [conf|] eqn:Hconf;
    cbn in H; [|done].
  destruct (if truthy (prop m "events") then _ else _) as [ev|] eqn:Hev;
    cbn in H; [|done].
  destruct (if truthy (prop m "actions") then _ else _) as [ac|] eqn:Hac;
    cbn in H; [|done].
  destruct (if truthy (prop m "channels") then _ else _) as [ch|] eqn:Hch;
    cbn in H; [|done].
  destruct (if truthy (prop m "states") then _ else _) as [st|] eqn:Hst;
    cbn in H; [|done].
  injection H as <-. by exists conf, ev, ac, ch, st.
Qed.

Lemma merged_plain (m : gmap string value) conf ev ac ch st k :
  k ∈ ["name"; "version"; "title"; "description"; "icon"; "readme"; "user"; "secrets"] →
  prop (merged m conf ev ac ch st) k = prop m k.
Proof.
  intros Hk. unfold merged, prop.
  repeat (apply elem_of_cons in Hk as [->|Hk]; [by simplify_map_eq|]).
  by apply elem_of_nil in Hk.
Qed.

Lemma manifest_shape_NoDup : NoDup (shape_of integrationDefinitionSchema).*1.
Proof. apply (bool_decide_unpack _). by vm_compute. Qed.

(** An issue of a field of the manifest makes validation fail with it. *)
Lemma manifest_issue (fm : gmap string value) k s i :
  (k, s) ∈ shape_of integrationDefinitionSchema →
  i ∈ issues (_parse s [PKey k] (prop fm k)) →
  ∃ errs, validate (VObj fm) = Err (ZodError errs) ∧ i ∈ errs.
Proof.
  intros Hks Hi.
  assert (i ∈ issues (_parse integrationDefinitionSchema [] (VObj fm))) as Hin.
  { apply object_issues. by exists k, s. }
  exists (issues (_parse integrationDefinitionSchema [] (VObj fm))). split; [|done].
  unfold validate.
  assert (parse integrationDefinitionSchema (VObj fm)
          = Err (issues (_parse integrationDefinitionSchema [] (VObj fm)))) as ->; [|done].
  apply parse_Err. split; [done|]. intros H.
  rewrite H in Hin. by apply elem_of_nil in Hin.
Qed.

(** A manifest that validates: every field parsed cleanly to the field of
    the result. *)
Lemma manifest_valid (fm : gmap string value) p :
  validate (VObj fm) = Ok p →
  ∃ pm, p = VObj pm ∧
    ∀ k s, (k, s) ∈ shape_of integrationDefinitionSchema →
      issues (_parse s [PKey k] (prop fm k)) = [] ∧
      output (_parse s [PKey k] (prop fm k)) = Some (prop pm k).
Proof.
  unfold validate. destruct (parse _ _) as [p'|] eqn:Hp; [|done].
  intros [= ->]. apply parse_Ok in Hp as [Hi Ho].
  by apply (object_valid _ _ [] fm p manifest_shape_NoDup Hi Ho).
Qed.

Lemma new_Ok_inv (m : gmap string value) r :
  new_IntegrationDefinition tr (VObj m) = Ok r →
  ∃ f p, formatIntegrationDefinition tr (VObj m) = Ok f ∧ validate f = Ok p ∧
         r = assign_fields p.
Proof.
  unfold new_IntegrationDefinition. intros H.
  destruct (formatIntegrationDefinition tr (VObj m)) as [f|]; cbn in H; [|done].
  destruct (validate f) as [p|] eqn:Hp; cbn in H; [|done].
  injection H as <-. by exists f, p.
Qed.


Lemma parse_conforms_Ok s v : conforms s v → parse s v = Ok v.
Proof. intros H. unfold parse. by rewrite (parse_conforms s v [] H). Qed.


(** *** Formatting raises no validation error *)

Lemma js_not_ZodError {A} (r : result TypeError A) e : js r = Err e → not_ZodError e.
Proof. destruct r; cbn; [done|]. by intros [= <-]. Qed.

Lemma with_json_schema_not_ZodError v e :
  with_json_schema tr v = Err e → not_ZodError e.
Proof. unfold with_json_schema. destruct (tr v); [done|]. by intros [= <-]. Qed.

Lemma mapValues_not_ZodError f v e :
  (∀ x e', f x = Err e' → not_ZodError e') →
  mapValues v f = Err e → not_ZodError e.
Proof.
  intros Hf. unfold mapValues.
  destruct (js (to_object v)) as [o|e0] eqn:Ho; cbn.
  - destruct (map_traverse f o) as [o'|e1] eqn:Ht; cbn; [done|]. intros [= ->].
    apply map_traverse_err_origin in Ht as (k & x & _ & Hx). by eapply Hf.
  - intros [= ->]. by eapply js_not_ZodError.
Qed.

Lemma format_action_not_ZodError v e : format_action tr v = Err e → not_ZodError e.
Proof.
  unfold format_action.
  destruct (js (get v "input")) as [i|e0] eqn:Hi; cbn;
    [|intros [= ->]; by eapply js_not_ZodError].
  destruct (with_json_schema tr i) as [i'|e0] eqn:Hi'; cbn;
    [|intros [= ->]; by eapply with_json_schema_not_ZodError].
  destruct (js (get v "output")) as [o|e0] eqn:Ho; cbn;
    [|intros [= ->]; by eapply js_not_ZodError].
  destruct (with_json_schema tr o) as [o'|e0] eqn:Ho'; cbn;
    [done|intros [= ->]; by eapply with_json_schema_not_ZodError].
Qed.

Lemma format_channel_not_ZodError v e : format_channel tr v = Err e → not_ZodError e.
Proof.
  unfold format_channel.
  destruct (js (get v "messages")) as [ms|e0] eqn:Hms; cbn;
    [|intros [= ->]; by eapply js_not_ZodError].
  destruct (mapValues ms _) as [ms'|e0] eqn:Hms'; cbn; [done|]. intros [= ->].
  eapply mapValues_not_ZodError; [|done]. apply with_json_schema_not_ZodError.
Qed.

Lemma format_not_ZodError d e :
  formatIntegrationDefinition tr d = Err e → not_ZodError e.
Proof.
  assert (∀ (v : value) (f : value → result Thrown value),
    (∀ x e', f x = Err e' → not_ZodError e') →
    (if truthy v then mapValues v f else mret VUndefined) = Err e → not_ZodError e) as Hmv.
  { intros v f Hf. destruct (truthy v); [|done]. by apply mapValues_not_ZodError. }
  unfold formatIntegrationDefinition.
  destruct (js (get d "configuration")) as [c0|e0] eqn:H0; cbn;
    [|intros [= ->]; by eapply js_not_ZodError].
  destruct (if truthy c0 then _ else _) as [c|e0] eqn:H1; cbn.
  2:{ intros [= ->]. destruct (truthy c0); [|done].
      by eapply with_json_schema_not_ZodError. }
  destruct (js (get d "events")) as [e1|e0] eqn:H2; cbn;
    [|intros [= ->]; by eapply js_not_ZodError].
  destruct (if truthy e1 then _ else _) as [ev|e0] eqn:H3; cbn.
  2:{ intros [= ->]. eapply Hmv; [|done]. apply with_json_schema_not_ZodError. }
  destruct (js (get d "actions")) as [a1|e0] eqn:H4; cbn;
    [|intros [= ->]; by eapply js_not_ZodError].
  destruct (if truthy a1 then _ else _) as [ac|e0] eqn:H5; cbn.
  2:{ intros [= ->]. eapply Hmv; [|done]. apply format_action_not_ZodError. }
  destruct (js (get d "channels")) as [c1|e0] eqn:H6; cbn;
    [|intros [= ->]; by eapply js_not_ZodError].
  destruct (if truthy c1 then _ else _) as [ch|e0] eqn:H7; cbn.
  2:{ intros [= ->]. eapply Hmv; [|done]. apply format_channel_not_ZodError. }
  destruct (js (get d "states")) as [s1|e0] eqn:H8; cbn;
    [|intros [= ->]; by eapply js_not_ZodError].
  destruct (if truthy s1 then _ else _) as [st|e0] eqn:H9; cbn.
  2:{ intros [= ->]. eapply Hmv; [|done]. apply with_json_schema_not_ZodError. }
  destruct (js (get d "user")) as [u|e0] eqn:H10; cbn; [done|].
  intros [= ->]. by eapply js_not_ZodError.
Qed.

(** A validation error is raised by validation: the sections had been
    formatted, and the error lists the issues of the parse. *)
Lemma new_ZodError_inv d errs :
  new_IntegrationDefinition tr d = Err (ZodError errs) →
  ∃ f, formatIntegrationDefinition tr d = Ok f ∧
       parse integrationDefinitionSchema f = Err errs.
Proof.
  unfold new_IntegrationDefinition.
  destruct (formatIntegrationDefinition tr d) as [f|e] eqn:Hf; cbn.
  - unfold validate. destruct (parse _ f) as [p|errs'] eqn:Hp; cbn; [done|].
    intros [= ->]. by exists f.
  - intros [= ->]. by apply format_not_ZodError in Hf.
Qed.

(** *** Required fields and the version *)

Lemma new_of_format (m : gmap string value) f :
  formatIntegrationDefinition tr (VObj m) = Ok f →
  new_IntegrationDefinition tr (VObj m) = validate f ≫= λ p, Ok (assign_fields p).
Proof. unfold new_IntegrationDefinition. by intros ->. Qed.

Lemma plain_field_rejected (m : gmap string value) k s c :
  (k, s) ∈ shape_of integrationDefinitionSchema →
  k ∈ ["name"; "version"; "title"; "description"; "icon"; "readme"; "user"; "secrets"] →
  _parse s [PKey k] (prop m k) = INVALID c [PKey k] →
  (∀ r, new_IntegrationDefinition tr (VObj m) ≠ Ok r) ∧
  (∀ f, formatIntegrationDefinition tr (VObj m) = Ok f →
        ∃ errs, new_IntegrationDefinition tr (VObj m) = Err (ZodError errs) ∧
                Issue c [PKey k] ∈ errs).
Proof.
  intros Hks Hk Hp.
  assert (∀ f, formatIntegrationDefinition tr (VObj m) = Ok f →
               ∃ errs, new_IntegrationDefinition tr (VObj m) = Err (ZodError errs) ∧
                       Issue c [PKey k] ∈ errs) as Hfail.
  { intros f Hf. rewrite (new_of_format _ _ Hf).
    apply format_object in Hf as (conf & ev & ac & ch & st & -> & _).
    destruct (manifest_issue (merged m conf ev ac ch st) k s (Issue c [PKey k]) Hks)
      as (errs & -> & Hin).
    - rewrite merged_plain, Hp by done. by left.
    - by exists errs. }
  split; [|done]. intros r Hr.
  destruct (new_Ok_inv _ _ Hr) as (f & _ & Hf & _).
  destruct (Hfail f Hf) as (errs & Herr & _). congruence.
Qed.



(** *** Omitted sections *)

Lemma merged_sections (m : gmap string value) conf ev ac ch st :
  prop (merged m conf ev ac ch st) "configuration" = conf ∧
  prop (merged m conf ev ac ch st) "events" = ev ∧
  prop (merged m conf ev ac ch st) "actions" = ac ∧
  prop (merged m conf ev ac ch st) "channels" = ch ∧
  prop (merged m conf ev ac ch st) "states" = st.
Proof. unfold merged, prop. split_and!; by simplify_map_eq. Qed.

Lemma fields_assign (pm : gmap string value) k :
  k ∈ (shape_of integrationDefinitionSchema).*1 →
  fields (assign_fields (VObj pm)) !! k = Some (prop pm k).
Proof.
  intros Hk. cbn in Hk. unfold fields, assign_fields. cbn [list_to_map foldr own_props].
  repeat (apply elem_of_cons in Hk as [->|Hk]; [by simplify_map_eq|]).
  by apply elem_of_nil in Hk.
Qed.

Lemma undeclared (v v' : value) (declared : result Thrown value) :
  v = VUndefined → (if truthy v then declared else mret VUndefined) = Ok v' →
  v' = VUndefined.
Proof. intros ->. cbn. by intros [= <-]. Qed.

Lemma optional_field_undefined (fm : gmap string value) p k s :
  validate (VObj fm) = Ok p →
  (k, ZodOptional s) ∈ shape_of integrationDefinitionSchema →
  prop fm k = VUndefined →
  fields (assign_fields p) !! k = Some VUndefined.
Proof.
  intros Hp Hks Hk. apply manifest_valid in Hp as (pm & -> & Hpm).
  destruct (Hpm _ _ Hks) as [_ Ho]. rewrite Hk in Ho. cbn in Ho.
  injection Ho as Ho. rewrite fields_assign, <- Ho; [done|].
  apply list_elem_of_fmap. by exists (k, ZodOptional s).
Qed.

(** C4: when a definition object omits an optional section or an
    optional field, the field of that name on the constructed object is
    [undefined]. *)
Theorem omitted_fields_are_undefined (m : gmap string value) r k :
  new_IntegrationDefinition tr (VObj m) = Ok r →
  k ∈ optional_fields → m !! k = None →
  fields r !! k = Some VUndefined.
Proof.
  intros Hnew Hk Hm.
  destruct (new_Ok_inv _ _ Hnew) as (f & p & Hf & Hp & ->).
  apply format_object in Hf
    as (conf & ev & ac & ch & st & -> & Hconf & Hev & Hac & Hch & Hst).
  assert (prop m k = VUndefined) as Hu by (unfold prop; by rewrite Hm).
  destruct (merged_sections m conf ev ac ch st) as (Mc & Me & Ma & Mch & Ms).
  unfold optional_fields in Hk.
  repeat (apply elem_of_cons in Hk as [->|Hk];
    [eapply optional_field_undefined;
       [done|cbn; unfold optional; elem_tac|];
       first [ by rewrite merged_plain by elem_tac
             | rewrite Mc; exact (undeclared _ _ _ Hu Hconf)
             | rewrite Me; exact (undeclared _ _ _ Hu Hev)
             | rewrite Ma; exact (undeclared _ _ _ Hu Hac)
             | rewrite Mch; exact (undeclared _ _ _ Hu Hch)
             | rewrite Ms; exact (undeclared _ _ _ Hu Hst) ] |]).
  by apply elem_of_nil in Hk.
Qed.

(** *** Channels and their messages *)

Lemma mapValues_object f (m : gmap string value) v' :
  mapValues (VObj m) f = Ok v' →
  ∃ m', v' = VObj m' ∧ ∀ k, option_Forall2 (λ v v', f v = Ok v') (m !! k) (m' !! k).
Proof.
  unfold mapValues. cbn. destruct (map_traverse f m) as [m'|] eqn:Hm; cbn; [|done].
  intros [= <-]. exists m'. split; [done|]. by apply map_traverse_inv.
Qed.




(** *** The two steps *)

Lemma with_json_schema_inv v v' :
  with_json_schema tr v = Ok v' →
  ∃ j, tr v = Ok j ∧ v' = VObj (<["schema" := VObj j]> (own_props v)).
Proof.
  unfold with_json_schema. destruct (tr v) as [j|]; [|done].
  intros [= <-]. by exists j.
Qed.

Lemma mapValues_inv f v v' :
  mapValues v f = Ok v' →
  ∃ m', v' = VObj m' ∧
        ∀ k, option_Forall2 (λ x x', f x = Ok x') (own_props v !! k) (m' !! k).
Proof.
  unfold mapValues. destruct (to_object v) as [o|] eqn:Ho; cbn; [|done].
  assert (o = own_props v) as ->.
  { unfold to_object in Ho. destruct v; congruence. }
  destruct (map_traverse f (own_props v)) as [m'|] eqn:Hm; cbn; [|done].
  intros [= <-]. exists m'. split; [done|]. by apply map_traverse_inv.
Qed.

Lemma declared_inv (v v' : value) (declared : result Thrown value) :
  truthy v = true → (if truthy v then declared else mret VUndefined) = Ok v' →
  declared = Ok v'.
Proof. by intros ->. Qed.

Lemma value_at_undefined q : value_at VUndefined q = VUndefined.
Proof. by destruct q as [|[]]. Qed.

Lemma value_at_app f p q : value_at f (p ++ q) = value_at (value_at f p) q.
Proof.
  revert f. induction p as [|[k|i] p IH]; intros f; [done| |].
  - cbn. destruct f; by rewrite ?value_at_undefined.
  - cbn. destruct f; by rewrite ?value_at_undefined.
Qed.

Lemma section_carries (f : value) path (section section' : value) :
  value_at f path = section' →
  with_json_schema tr section = Ok section' →
  carries_translation tr f path section.
Proof.
  intros Hpath (j & Hj & ->)%with_json_schema_inv.
  exists j. split; [done|]. rewrite value_at_app, Hpath. cbn.
  unfold prop. by rewrite lookup_insert_eq.
Qed.

Lemma dict_entry f (v dict' : value) k x :
  mapValues v f = Ok dict' → own_props v !! k = Some x →
  ∃ x', f x = Ok x' ∧ value_at dict' [PKey k] = x'.
Proof.
  intros (m' & -> & Hm')%mapValues_inv Hk.
  specialize (Hm' k). rewrite Hk in Hm'.
  inversion Hm' as [? x' Hx Heq1 Heq2|]; subst. symmetry in Heq2.
  exists x'. split; [done|]. cbn. unfold prop. by rewrite Heq2.
Qed.

Lemma dict_carries (f : value) path (v dict' : value) k section :
  value_at f path = dict' →
  mapValues v (with_json_schema tr) = Ok dict' →
  own_props v !! k = Some section →
  carries_translation tr f (path ++ [PKey k]) section.
Proof.
  intros Hpath Hmv Hk. destruct (dict_entry _ _ _ _ _ Hmv Hk) as (x' & Hx & Hat).
  eapply section_carries; [|done]. by rewrite value_at_app, Hpath.
Qed.

Lemma format_action_inv a a' :
  format_action tr a = Ok a' →
  ∃ i o i' o', get a "input" = Ok i ∧ get a "output" = Ok o ∧
    with_json_schema tr i = Ok i' ∧ with_json_schema tr o = Ok o' ∧
    a' = VObj (<["output" := o']> (<["input" := i']> (own_props a))).
Proof.
  unfold format_action.
  destruct (get a "input") as [i|] eqn:Hi; cbn; [|done].
  destruct (with_json_schema tr i) as [i'|] eqn:Hi'; cbn; [|done].
  destruct (get a "output") as [o|] eqn:Ho; cbn; [|done].
  destruct (with_json_schema tr o) as [o'|] eqn:Ho'; cbn; [|done].
  intros [= <-]. by exists i, o, i', o'.
Qed.

Lemma format_channel_inv c c' :
  format_channel tr c = Ok c' →
  ∃ ms ms', get c "messages" = Ok ms ∧
    mapValues ms (with_json_schema tr) = Ok ms' ∧
    c' = VObj (<["messages" := ms']> (own_props c)).
Proof.
  unfold format_channel.
  destruct (get c "messages") as [ms|] eqn:Hms; cbn; [|done].
  destruct (mapValues ms _) as [ms'|] eqn:Hms'; cbn; [|done].
  intros [= <-]. by exists ms, ms'.
Qed.

Lemma merged_at (m : gmap string value) conf ev ac ch st :
  value_at (VObj (merged m conf ev ac ch st)) [PKey "configuration"] = conf ∧
  value_at (VObj (merged m conf ev ac ch st)) [PKey "events"] = ev ∧
  value_at (VObj (merged m conf ev ac ch st)) [PKey "actions"] = ac ∧
  value_at (VObj (merged m conf ev ac ch st)) [PKey "channels"] = ch ∧
  value_at (VObj (merged m conf ev ac ch st)) [PKey "states"] = st.
Proof. apply merged_sections. Qed.

(** Every issue of a failed validation of an object is at a field of the
    manifest, and its path leads to a schema and a value, inside the
    manifest schema and the object, such that this schema reports this
    issue for this value. *)
Lemma manifest_issue_located (fm : gmap string value) errs i :
  parse integrationDefinitionSchema (VObj fm) = Err errs → i ∈ errs →
  ∃ k rest s',
    issue_path i = PKey k :: rest ∧
    k ∈ (shape_of integrationDefinitionSchema).*1 ∧
    schema_at integrationDefinitionSchema (issue_path i) s' ∧
    i ∈ issues (_parse s' (issue_path i) (value_at (VObj fm) (issue_path i))).
Proof.
  intros [-> _]%parse_Err Hi.
  destruct (issue_located _ _ _ _ Hi) as (rel & s' & Hrel & Hat & Hin).
  cbn in Hrel, Hin. subst rel.
  apply object_issues in Hi as (k & s & Hks & Hi).
  destruct (issue_located _ _ _ _ Hi) as (rest & _ & Hrest & _).
  cbn in Hrest. exists k, rest, s'. split_and!; [done| |done..].
  apply list_elem_of_fmap. by exists (k, s).
Qed.

(** C5: construction takes two steps.  First the sections are
    formatted: if that throws, construction throws the same; otherwise
    every declared section of the formatted object carries, as its
    schema, the translation of the section.  Then the formatted object is
    validated against the manifest schema; when that fails, construction
    raises the validation error with the issues found, there is at least
    one, and each has a path that starts at a field of the manifest and
    leads to the value the schema at that position rejects.  No
    validation error is raised otherwise. *)
Theorem validation_follows_formatting_and_locates_issues (m : gmap string value) :
  (∀ e, formatIntegrationDefinition tr (VObj m) = Err e →
        new_IntegrationDefinition tr (VObj m) = Err e) ∧
  (∀ f, formatIntegrationDefinition tr (VObj m) = Ok f →
     (truthy (prop m "configuration") = true →
        carries_translation tr f [PKey "configuration"] (prop m "configuration")) ∧
     (∀ k event, truthy (prop m "events") = true →
        own_props (prop m "events") !! k = Some event →
        carries_translation tr f [PKey "events"; PKey k] event) ∧
     (∀ k action, truthy (prop m "actions") = true →
        own_props (prop m "actions") !! k = Some action →
        ∃ input output, get action "input" = Ok input ∧
          get action "output" = Ok output ∧
          carries_translation tr f [PKey "actions"; PKey k; PKey "input"] input ∧
          carries_translation tr f [PKey "actions"; PKey k; PKey "output"] output) ∧
     (∀ k channel, truthy (prop m "channels") = true →
        own_props (prop m "channels") !! k = Some channel →
        ∃ messages, get channel "messages" = Ok messages ∧
          ∀ l message, own_props messages !! l = Some message →
            carries_translation tr f
              [PKey "channels"; PKey k; PKey "messages"; PKey l] message) ∧
     (∀ k state, truthy (prop m "states") = true →
        own_props (prop m "states") !! k = Some state →
        carries_translation tr f [PKey "states"; PKey k] state) ∧
     new_IntegrationDefinition tr (VObj m)
     = validate f ≫= (λ parsed, Ok (assign_fields parsed)) ∧
     (∀ errs, parse integrationDefinitionSchema f = Err errs →
        new_IntegrationDefinition tr (VObj m) = Err (ZodError errs) ∧
        errs ≠ [] ∧
        ∀ i, i ∈ errs →
          ∃ k rest s',
            issue_path i = PKey k :: rest ∧
            k ∈ (shape_of integrationDefinitionSchema).*1 ∧
            schema_at integrationDefinitionSchema (issue_path i) s' ∧
            i ∈ issues (_parse s' (issue_path i) (value_at f (issue_path i))))) ∧
  (∀ errs, new_IntegrationDefinition tr (VObj m) = Err (ZodError errs) →
     ∃ f, formatIntegrationDefinition tr (VObj m) = Ok f ∧
          parse integrationDefinitionSchema f = Err errs).
Proof.
  split_and!.
  - intros e He. unfold new_IntegrationDefinition. by rewrite He.
  - intros f Hf. pose proof (new_of_format _ _ Hf) as Hnew.
    apply format_object in Hf
      as (conf & ev & ac & ch & st & -> & Hconf & Hev & Hac & Hch & Hst).
    destruct (merged_at m conf ev ac ch st) as (Mc & Me & Ma & Mch & Ms).
    split_and!.
    + intros Ht. eapply section_carries; [done|]. by eapply declared_inv.
    + intros k event Ht Hk.
      apply (dict_carries _ [PKey "events"] (prop m "events") ev); [done| |done].
      by eapply declared_inv.
    + intros k action Ht Hk. apply (declared_inv _ _ _ Ht) in Hac.
      destruct (dict_entry _ _ _ _ _ Hac Hk) as (a' & Ha & Hat).
      apply format_action_inv in Ha as (i & o & i' & o' & Hi & Ho & Hi' & Ho' & ->).
      exists i, o. split_and!; [done..| |].
      * eapply section_carries; [|done].
        change [PKey "actions"; PKey k; PKey "input"]
          with ([PKey "actions"] ++ [PKey k] ++ [PKey "input"]).
        rewrite !value_at_app, Ma, Hat. cbn. unfold prop. by simplify_map_eq.
      * eapply section_carries; [|done].
        change [PKey "actions"; PKey k; PKey "output"]
          with ([PKey "actions"] ++ [PKey k] ++ [PKey "output"]).
        rewrite !value_at_app, Ma, Hat. cbn. unfold prop. by simplify_map_eq.
    + intros k channel Ht Hk. apply (declared_inv _ _ _ Ht) in Hch.
      destruct (dict_entry _ _ _ _ _ Hch Hk) as (c' & Hc & Hat).
      apply format_channel_inv in Hc as (ms & ms' & Hms & Hms' & ->).
      exists ms. split; [done|]. intros l message Hl.
      apply (dict_carries _ [PKey "channels"; PKey k; PKey "messages"] ms ms');
        [|done..].
      change [PKey "channels"; PKey k; PKey "messages"]
        with ([PKey "channels"] ++ [PKey k] ++ [PKey "messages"]).
      rewrite !value_at_app, Mch, Hat. cbn. unfold prop. by simplify_map_eq.
    + intros k state Ht Hk.
      apply (dict_carries _ [PKey "states"] (prop m "states") st); [done| |done].
      by eapply declared_inv.
    + done.
    + intros errs Hp. rewrite Hnew. unfold validate. rewrite Hp. cbn.
      split_and!; [done|by apply parse_Err in Hp as [_ ?]|].
      intros i Hi. by eapply manifest_issue_located.
  - apply new_ZodError_inv.
Qed.

End SdkFacts.

(** ** Building the hypotheses for given objects *)

Section Building.
Import Zod Sdk Spec Examples.


Lemma map_Forall_entries {A} (P : string → A → Prop) (l : list (string * A)) :
  Forall (λ kv, P kv.1 kv.2) l → map_Forall P (list_to_map l : gmap string A).
Proof.
  intros H k v Hk. apply elem_of_list_to_map_2 in Hk.
  rewrite Forall_forall in H. by apply (H (k, v)).
Qed.

End Building.

(** ** What validation returns *)

Section ZodOutputs.
Import Zod Spec.

Lemma mergeArray_valid results p :
  issues (mergeArray results) = [] → output (mergeArray results) = Some p →
  ∃ l, p = VArr l ∧
       Forall2 (λ r x, issues r = [] ∧ output r = Some x) results l.
Proof.
  unfold mergeArray. cbn. intros Hi Ho.
  destruct (mapM output results) as [l|] eqn:Hl; [|done].
  injection Ho as <-. exists l. split; [done|].
  apply mapM_Some in Hl. revert Hi.
  induction Hl as [|r x rs l Hr _ IH]; [constructor|]. cbn.
  intros [Hir Hirs]%app_eq_nil. constructor; auto.
Qed.

(** An entry of a merged object comes from a pair, and is defined unless
    the pair is always set. *)
Lemma merged_entry pairs pm k y :
  output (mergeObjectSync pairs) = Some (VObj pm) → pm !! k = Some y →
  ∃ q, q ∈ pairs ∧ pair_key q = k ∧ (alwaysSet q = false → is_undefined y = false).
Proof.
  unfold mergeObjectSync. cbn. destruct (forallb _ pairs); [|done].
  intros [= <-] Hk. apply elem_of_list_to_map_2 in Hk.
  apply list_elem_of_omap in Hk as (q & Hq & Heq).
  exists q. split; [done|]. split; [symmetry; by eapply pair_entry_key|].
  intros Hset. unfold pair_entry in Heq. rewrite Hset in Heq.
  destruct (output (pair_value q)) as [v|]; [|done].
  rewrite andb_true_r in Heq. destruct (is_undefined v) eqn:Hv; [done|].
  by injection Heq as _ <-.
Qed.

Lemma scalar_valid_conforms s path v :
  scalar s = true → _parse s path v = OK v → conforms s v.
Proof.
  destruct s; try done; intros _; destruct v; cbn; try done.
  - by eexists.
  - by eexists.
  - destruct (String.eqb s lit) eqn:Heq; [|done]. by apply String.eqb_eq in Heq as ->.
  - case_bool_decide; [|done]. by eexists.
Qed.

(** What a clean parse returns has exactly the shape of the schema. *)
Lemma valid_conforms s :
  regular s = true →
  ∀ v path p, issues (_parse s path v) = [] → output (_parse s path v) = Some p →
  conforms s p.
Proof.
  induction s as [ | | lit | vs | os IH | e IH | t IH | sh uk IH | i IH | i chk msg IH]
    using ZodType_nested_ind; intros Hreg v path p Hi Ho.
  - destruct v; try done. injection Ho as <-. by eexists.
  - destruct v; try done. injection Ho as <-. by eexists.
  - destruct v; try done. cbn in Hi, Ho.
    destruct (String.eqb s lit) eqn:Heq; [|done].
    injection Ho as <-. by apply String.eqb_eq in Heq as ->.
  - destruct v; try done. cbn in Hi, Ho. case_bool_decide; [|done].
    injection Ho as <-. by eexists.
  - cbn in Hreg, Hi, Ho. cbn. split; [done|].
    destruct (find isValid _) as [r|] eqn:Hv.
    + apply find_some in Hv as [Hr Hv].
      apply list_elem_of_In, list_elem_of_fmap in Hr as (o & -> & Hin).
      pose proof (forallb_elem_of _ _ _ Hreg Hin) as Hs.
      destruct (scalar_parse o path v Hs) as [Heq|Hnv]; [|congruence].
      rewrite Heq in Ho. injection Ho as <-.
      pose proof (scalar_valid_conforms o path v Hs Heq) as Hc.
      clear -Hin Hc. induction os as [|o' os IHos]; [by apply elem_of_nil in Hin|].
      apply elem_of_cons in Hin as [->|Hin]; [by left|right; by apply IHos].
    + destruct (find isDirty _) as [r|] eqn:Hd; [|done].
      apply find_some in Hd as [_ Hd]. by destruct r as [[|??] [?|]].
  - destruct v; try done. cbn in Hreg, Hi, Ho.
    destruct (mergeArray_valid _ _ Hi Ho) as (l' & -> & Hl').
    exists l'. split; [done|]. apply Forall_forall. intros x Hx.
    apply list_elem_of_lookup in Hx as [j Hj].
    destruct (Forall2_lookup_r _ _ _ _ _ Hl' Hj) as (r & Hr & Hri & Hro).
    assert (r ∈ imap (λ i x, _parse e (path ++ [PIdx i]) x) l) as Hin
      by (by eapply list_elem_of_lookup_2).
    apply elem_of_lookup_imap_1 in Hin as (j' & x' & -> & _). by eapply IH.
  - destruct v; try done. cbn in Hreg.
    destruct (record_valid _ _ _ _ Hi Ho) as (pm & -> & Hentries & Hnone).
    exists pm. split; [done|]. intros k y Hk.
    destruct (m !! k) as [x|] eqn:Hx; [|rewrite (Hnone k Hx) in Hk; done].
    destruct (Hentries k x Hx) as [Hxi Hxo].
    unfold prop in Hxo. rewrite Hk in Hxo. cbn in Hxo. split; [|by eapply IH].
    destruct (merged_entry _ _ _ _ Ho Hk) as (q & Hq & _ & Hdef).
    apply list_elem_of_fmap in Hq as (kv & -> & _).
    specialize (Hdef eq_refl). by destruct y.
  - destruct v; try done. cbn in Hreg.
    apply andb_true_iff in Hreg as [Hnd Hreg]. apply bool_decide_eq_true in Hnd.
    destruct (object_valid _ _ _ _ _ Hnd Hi Ho) as (pm & -> & Hfields).
    exists pm. split_and!; [done|done| |].
    + assert (∀ k s, (k, s) ∈ sh → conforms s (prop pm k)) as Hall.
      { intros k s Hks. destruct (Hfields k s Hks) as [Hki Hko].
        rewrite Forall_forall in IH. eapply (IH (k, s)); [done| |done..].
        by apply (forallb_elem_of _ _ (k, s) Hreg). }
      clear -Hall. induction sh as [|[k s] sh IHsh]; [done|]. split.
      * apply Hall. left.
      * apply IHsh. intros k' s' Hin. apply Hall. by right.
    + assert (∀ k y, pm !! k = Some y →
                k ∈ sh.*1 ∨ (uk = passthrough ∧ is_undefined y = false)) as Hkeys.
      { intros k y Hk.
        destruct (merged_entry _ _ _ _ Ho Hk) as (q & Hq & <- & Hdef).
        apply elem_of_app in Hq as [Hq|Hq].
        - left. apply list_elem_of_fmap in Hq as (ks & -> & Hks).
          apply list_elem_of_fmap. by exists ks.
        - destruct uk; [by apply elem_of_nil in Hq|]. right. split; [done|].
          apply list_elem_of_fmap in Hq as (kv & -> & _). by apply Hdef. }
      destruct uk.
      * intros k [y Hk]%elem_of_dom.
        destruct (Hkeys k y Hk) as [Hin|[? _]]; [|done].
        by apply elem_of_list_to_set.
      * intros k y Hk Hns. destruct (Hkeys k y Hk) as [Hin|[_ ?]]; [|done].
        unfold in_shape in Hns. by apply bool_decide_eq_false in Hns.
  - cbn in Hreg. destruct (is_undefined v) eqn:Hu.
    + destruct v; try done. injection Ho as <-. by left.
    + rewrite optional_defined in Hi, Ho by done. right. by eapply IH.
  - cbn in Hreg. destruct (effects_valid _ _ _ _ _ _ Hi Ho) as (Hii & Hio & Hchk).
    split; [by eapply IH|done].
Qed.

End ZodOutputs.

(** ** Semantic versions *)

Section SemverFacts.
Import Semver Spec.

Example inc_patch : inc "1.2.3" (Some r_patch) = Some "1.2.4".
Proof. reflexivity. Qed.

Example inc_minor : inc "1.2.3" (Some r_minor) = Some "1.3.0".
Proof. reflexivity. Qed.

Example inc_major : inc "0.2.1" (Some r_major) = Some "1.0.0".
Proof. reflexivity. Qed.

Example inc_from_prerelease : inc "1.2.3-beta.1" (Some r_patch) = Some "1.2.3".
Proof. reflexivity. Qed.

Example inc_invalid : inc "1.2" (Some r_patch) = None.
Proof. reflexivity. Qed.

(** On a version without prerelease identifiers the library increments
    the component of the release and resets the lower ones. *)
Lemma inc_release_next v release :
  prerelease v = [] → inc_release v release = next_release v release.
Proof.
  intros Hpre. destruct release; cbn; rewrite Hpre; cbn;
    by rewrite ?orb_true_r.
Qed.

Lemma inc_parsed version v release :
  parse version = Some v →
  inc version (Some release) = Some (format (inc_release v release)).
Proof. unfold inc. by intros ->. Qed.

Lemma inc_no_release version : inc version None = None.
Proof. unfold inc. by destruct (parse version). Qed.

(** *** Reading back a version that was written *)

Lemma to_uint_normal n : Decimal.unorm (N.to_uint n) = N.to_uint n.
Proof. by rewrite <- DecimalN.Unsigned.to_of, DecimalN.Unsigned.of_to. Qed.

Lemma to_uint_nonnil n : N.to_uint n ≠ Decimal.Nil.
Proof. rewrite <- to_uint_normal. apply DecimalFacts.unorm_nonnil. Qed.

Lemma show_unfold n : show n = NilEmpty.string_of_uint (N.to_uint n).
Proof.
  unfold show, NilZero.string_of_uint. pose proof (to_uint_nonnil n).
  by destruct (N.to_uint n).
Qed.

Lemma numeric_identifier_show n : numeric_identifier (show n) = Some n.
Proof.
  unfold numeric_identifier, show.
  rewrite NilZero.usu by apply to_uint_nonnil.
  rewrite to_uint_normal, Decimal.internal_uint_dec_lb by done.
  by rewrite DecimalN.Unsigned.of_to.
Qed.

Lemma show_digits n : all_chars is_digit (show n) = true.
Proof. rewrite show_unfold. by induction (N.to_uint n). Qed.

Lemma show_nonempty n : ∃ c rest, show n = String c rest ∧ is_digit c = true.
Proof.
  pose proof (show_digits n) as Hd. rewrite show_unfold in *.
  pose proof (to_uint_nonnil n). destruct (N.to_uint n); try done;
    cbn in *; by eexists _, _.
Qed.

Lemma all_chars_impl (p q : ascii → bool) s :
  (∀ c, p c = true → q c = true) → all_chars p s = true → all_chars q s = true.
Proof.
  intros Hpq. induction s as [|c s IH]; [done|]. cbn.
  intros [Hc Hs]%andb_true_iff. by rewrite (Hpq c Hc), IH.
Qed.

Lemma append_nil b : "" +:+ b = b.
Proof. reflexivity. Qed.

Lemma append_cons c a b : String c a +:+ b = String c (a +:+ b).
Proof. reflexivity. Qed.

Lemma all_chars_app p a b :
  all_chars p (a +:+ b) = all_chars p a && all_chars p b.
Proof.
  induction a as [|c a IH]; [done|].
  rewrite append_cons. cbn. by rewrite IH, andb_assoc.
Qed.

Lemma break_absent sep s :
  all_chars (λ c, negb (Ascii.eqb c sep)) s = true → break sep s = (s, None).
Proof.
  induction s as [|c s IH]; [done|]. cbn. intros [Hc Hs]%andb_true_iff.
  apply negb_true_iff in Hc. by rewrite Hc, IH.
Qed.

Lemma split_absent sep s :
  all_chars (λ c, negb (Ascii.eqb c sep)) s = true → split sep s = [s].
Proof.
  induction s as [|c s IH]; [done|]. cbn. intros [Hc Hs]%andb_true_iff.
  apply negb_true_iff in Hc. by rewrite Hc, IH.
Qed.

Lemma split_at sep a b :
  all_chars (λ c, negb (Ascii.eqb c sep)) a = true →
  split sep (a +:+ String sep b) = a :: split sep b.
Proof.
  induction a as [|c a IH].
  - rewrite append_nil. cbn. by rewrite Ascii.eqb_refl.
  - rewrite append_cons. cbn. intros [Hc Hs]%andb_true_iff.
    apply negb_true_iff in Hc. by rewrite Hc, IH.
Qed.

Lemma rtrim_id s : all_chars (λ c, negb (is_space c)) s = true → rtrim s = s.
Proof.
  induction s as [|c s IH]; [done|]. cbn. intros [Hc Hs]%andb_true_iff.
  rewrite IH by done. apply negb_true_iff in Hc. rewrite Hc. by destruct s.
Qed.

Lemma digit_cases c :
  is_digit c = true →
  is_space c = false ∧ Ascii.eqb c "." = false ∧ Ascii.eqb c "-" = false ∧
  Ascii.eqb c "+" = false ∧ Ascii.eqb c "v" = false.
Proof. by destruct c as [[] [] [] [] [] [] [] []]. Qed.

(** A version written as MAJOR.MINOR.PATCH parses to these components. *)
Lemma parse_format v :
  prerelease v = [] →
  (major v ≤ MAX_SAFE_INTEGER)%N → (minor v ≤ MAX_SAFE_INTEGER)%N →
  (patch v ≤ MAX_SAFE_INTEGER)%N →
  String.length (format v) ≤ MAX_LENGTH →
  parse (format v) = Some (mkSemVer (major v) (minor v) (patch v) [] []).
Proof.
  intros Hpre HM Hm Hp Hlen. unfold format in *. rewrite Hpre in *.
  set (t := show (major v) +:+ "." +:+ show (minor v) +:+ "." +:+ show (patch v)) in *.
  assert (∀ q : ascii → bool,
    (∀ c, is_digit c = true → q c = true) → q "."%char = true →
    all_chars q t = true) as Hall.
  { intros q Hd Hdot. unfold t. rewrite !all_chars_app. cbn. rewrite Hdot.
    by rewrite !(all_chars_impl is_digit q _ Hd (show_digits _)). }
  unfold parse.
  assert ((MAX_LENGTH <? String.length t)%nat = false) as ->
    by (apply Nat.ltb_ge; lia).
  assert (trim t = t) as ->.
  { unfold trim. destruct (show_nonempty (major v)) as (c & rest & Hshow & Hc).
    destruct (digit_cases c Hc) as (Hs & _).
    assert (ltrim t = t) as ->.
    { unfold t. rewrite Hshow, append_cons. cbn. by rewrite Hs. }
    apply rtrim_id, Hall; [|done]. intros c' Hc'.
    destruct (digit_cases c' Hc') as (-> & _). done. }
  assert (match t with String "v"%char rest => rest | _ => t end = t) as ->.
  { destruct (show_nonempty (major v)) as (c & rest & Hshow & Hc).
    unfold t. rewrite Hshow, append_cons.
    by destruct c as [[] [] [] [] [] [] [] []]. }
  rewrite (break_absent "+" t).
  2:{ apply Hall; [|done]. intros c Hc. by destruct (digit_cases c Hc) as (_&_&_&->&_). }
  rewrite (break_absent "-" t).
  2:{ apply Hall; [|done]. intros c Hc. by destruct (digit_cases c Hc) as (_&_&->&_). }
  assert (∀ n, all_chars (λ c, negb (Ascii.eqb c ".")) (show n) = true) as Hnodot.
  { intros n. eapply all_chars_impl; [|apply show_digits].
    intros c Hc. by destruct (digit_cases c Hc) as (_&->&_). }
  unfold t.
  change ("." +:+ show (minor v) +:+ "." +:+ show (patch v))
    with (String "." (show (minor v) +:+ String "." (show (patch v)))).
  rewrite split_at, split_at, split_absent by done.
  rewrite !numeric_identifier_show. cbn. unfold safe.
  by rewrite !(proj2 (N.leb_le _ _)) by done.
Qed.

(** Hence the increments of a written version, component by
    component. *)
Lemma inc_written v release :
  prerelease v = [] →
  (major v ≤ MAX_SAFE_INTEGER)%N → (minor v ≤ MAX_SAFE_INTEGER)%N →
  (patch v ≤ MAX_SAFE_INTEGER)%N →
  String.length (format v) ≤ MAX_LENGTH →
  inc (format v) (Some release)
  = Some (format (next_release (mkSemVer (major v) (minor v) (patch v) [] []) release)).
Proof.
  intros Hpre HM Hm Hp Hlen.
  rewrite (inc_parsed _ _ _ (parse_format v Hpre HM Hm Hp Hlen)).
  by rewrite inc_release_next.
Qed.

End SemverFacts.

(** ** The version-bump loop *)

Section DepsynkyFacts.
Import Depsynky Spec.

(** What one turn of the loop does, by cases. *)
Lemma bump_package_private pkg tv w :
  private (content pkg) = true → bump_package pkg tv w = (w, Ok tv).
Proof. unfold bump_package. by intros ->. Qed.

Lemma bump_package_public pkg tv w :
  private (content pkg) = false →
  bump_package pkg tv w =
    match answers w with
    | none :: _ => (asked pkg w, Ok tv)
    | jump :: _ =>
        match Semver.inc (pkg_version pkg) (release_type (Some jump)) with
        | None =>
            (asked pkg w,
             Err (DepSynkyError ("Invalid version jump: " +:+ jump_name (Some jump))))
        | Some next =>
            match files w !! path pkg with
            | Some current =>
                (mkWorld (<[path pkg := set_version next current]> (files w))
                         (tail (answers w))
                         (prompted w ++ [(pkg_name pkg, pkg_version pkg)])
                         (written w ++ [path pkg]),
                 Ok (<[pkg_name pkg := next]> tv))
            | None => (asked pkg w, Err (FileNotFound (path pkg)))
            end
        end
    | [] => (asked pkg w, Err (DepSynkyError "Invalid version jump: undefined"))
    end.
Proof.
  intros Hp. unfold bump_package, asked, pkg_name, pkg_version. rewrite Hp.
  unfold mbind, M_bind, promptJump, pkgjson_update, throw, mret, M_ret.
  destruct (answers w) as [|jump rest] eqn:Ha; cbn.
  - by rewrite inc_no_release.
  - destruct jump; cbn; try done;
      destruct (Semver.inc _ _) as [next|]; cbn; try done;
      by destruct (files w !! path pkg).
Qed.

(** One turn touches the manifest of its package only, writes at most
    that path, and leaves the manifests alone when it throws. *)
Lemma bump_package_effect pkg tv w w1 r :
  bump_package pkg tv w = (w1, r) →
  (∀ p, p ≠ path pkg → files w1 !! p = files w !! p) ∧
  (∃ ws, written w1 = written w ++ ws ∧
         (ws = [] ∨ ws = [path pkg] ∧ private (content pkg) = false)) ∧
  (∃ ps, prompted w1 = prompted w ++ ps ∧
         (ps = [] ∨ ps = [(pkg_name pkg, pkg_version pkg)] ∧
                    private (content pkg) = false)) ∧
  (∀ tv1 n, r = Ok tv1 → n ≠ pkg_name pkg → tv1 !! n = tv !! n) ∧
  (∀ e, r = Err e → files w1 = files w ∧ written w1 = written w).
Proof.
  destruct (private (content pkg)) eqn:Hp.
  - rewrite bump_package_private by done. intros [= <- <-].
    split_and!; [done|exists []; by rewrite app_nil_r; auto
                |exists []; by rewrite app_nil_r; auto|naive_solver|done].
  - rewrite bump_package_public by done.
    assert (∀ r0, (∀ tv1, r0 = Ok tv1 → tv1 = tv) → (asked pkg w, r0) = (w1, r) →
      (∀ p, p ≠ path pkg → files w1 !! p = files w !! p) ∧
      (∃ ws, written w1 = written w ++ ws ∧
             (ws = [] ∨ ws = [path pkg] ∧ false = false)) ∧
      (∃ ps, prompted w1 = prompted w ++ ps ∧
             (ps = [] ∨ ps = [(pkg_name pkg, pkg_version pkg)] ∧ false = false)) ∧
      (∀ tv1 n, r = Ok tv1 → n ≠ pkg_name pkg → tv1 !! n = tv !! n) ∧
      (∀ e, r = Err e → files w1 = files w ∧ written w1 = written w))
      as Hasked.
    { intros r0 Hr0 [= <- <-]. cbn.
      split_and!; [done|exists []; by rewrite app_nil_r; auto|eauto| |done].
      by intros tv1 n ->%Hr0. }
    destruct (answers w) as [|jump rest] eqn:Ha; [by apply Hasked|].
    destruct jump; try (apply Hasked; by intros ? [= <-]);
      (destruct (Semver.inc _ _) as [next|] eqn:Hinc; [|by apply Hasked]);
      (destruct (files w !! path pkg) as [cur|] eqn:Hf; [|by apply Hasked]).
    all: intros [= <- <-]; cbn; split_and!;
      [intros p Hne; by rewrite lookup_insert_ne|eauto|eauto
      |intros tv1 n [= <-] Hne; by rewrite lookup_insert_ne|done].
Qed.

Lemma bump_packages_cons pkg rest tv w :
  bump_packages (pkg :: rest) tv w =
    match bump_package pkg tv w with
    | (w1, Ok tv1) => bump_packages rest tv1 w1
    | (w1, Err e) => (w1, Err e)
    end.
Proof. done. Qed.

Lemma prompted_packages_cons pkg rest :
  prompted_packages (pkg :: rest) =
    if private (content pkg) then prompted_packages rest
    else pkg :: prompted_packages rest.
Proof.
  unfold prompted_packages. destruct (private (content pkg)) eqn:Hp.
  - rewrite filter_cons_False; [done|]. by rewrite Hp.
  - by rewrite filter_cons_True.
Qed.




Lemma new_writes_app w w' ws : written w' = written w ++ ws → new_writes w w' = ws.
Proof. unfold new_writes. intros ->. by rewrite drop_app_length. Qed.

Lemma new_prompts_app w w' ps :
  prompted w' = prompted w ++ ps → new_prompts w w' = ps.
Proof. unfold new_prompts. intros ->. by rewrite drop_app_length. Qed.


(** C6, as the code has it: when the loop throws at a package, the
    packages before it have been processed to completion and what was
    written for them stays written; the manifest of the package at which
    it throws and those of the packages after it are not written. *)
Theorem bump_failure_keeps_earlier_writes pkgs :
  ∀ tv w w' e, bump_packages pkgs tv w = (w', Err e) →
  ∃ before pkg after tv1 w1,
    pkgs = before ++ pkg :: after ∧
    bump_packages before tv w = (w1, Ok tv1) ∧
    bump_package pkg tv1 w1 = (w', Err e) ∧
    files w' = files w1 ∧ written w' = written w1.
Proof.
  induction pkgs as [|pkg0 rest IH]; intros tv w w' e H; [done|].
  rewrite bump_packages_cons in H.
  destruct (bump_package pkg0 tv w) as [w1 [tv1|e1]] eqn:Hstep.
  - destruct (IH _ _ _ _ H) as (before & pkg & after & tv2 & w2 & -> & Hb & Hp & Hf & Hw).
    exists (pkg0 :: before), pkg, after, tv2, w2. split_and!; [done| |done..].
    by rewrite bump_packages_cons, Hstep.
  - injection H as <- <-.
    destruct (bump_package_effect _ _ _ _ _ Hstep) as (_ & _ & _ & _ & He).
    destruct (He e1 eq_refl) as [Hf Hw].
    by exists [], pkg0, rest, tv, w.
Qed.

(** A turn that completes for a package that is not private. *)
Lemma bump_package_ok pkg tv w w1 tv1 :
  private (content pkg) = false →
  bump_package pkg tv w = (w1, Ok tv1) →
  ∃ jump rest, answers w = jump :: rest ∧ answers w1 = rest ∧
    match release_type (Some jump) with
    | Some release =>
        ∃ next current,
          Semver.inc (pkg_version pkg) (Some release) = Some next ∧
          files w !! path pkg = Some current ∧
          files w1 = <[path pkg := set_version next current]> (files w) ∧
          written w1 = written w ++ [path pkg] ∧
          tv1 = <[pkg_name pkg := next]> tv
    | None => files w1 = files w ∧ written w1 = written w ∧ tv1 = tv
    end.
Proof.
  intros Hp. rewrite bump_package_public by done.
  destruct (answers w) as [|jump rest] eqn:Ha; [done|].
  intros H. exists jump, rest. split; [done|].
  destruct jump; unfold release_type in *.
  4:{ injection H as <- <-. cbn. by rewrite Ha. }
  all: destruct (Semver.inc _ _) as [next|] eqn:Hinc; [|done].
  all: destruct (files w !! path pkg) as [cur|] eqn:Hcur; [|done].
  all: injection H as <- <-; cbn; split; [done|]; by exists next, cur.
Qed.


End DepsynkyFacts.

(** ** Runs of the version-bump loop *)

Section DepsynkyRuns.
Import Depsynky Spec.

Lemma bump_package_asks pkg tv w w1 r :
  private (content pkg) = false →
  bump_package pkg tv w = (w1, r) →
  prompted w1 = prompted w ++ [shown pkg] ∧ answers w1 = tail (answers w).
Proof.
  intros Hp. rewrite bump_package_public by done.
  destruct (answers w) as [|jump rest] eqn:Ha;
    [by intros [= <- <-]; cbn; rewrite Ha|].
  destruct jump; try (by intros [= <- <-]; cbn; rewrite Ha);
    (destruct (Semver.inc _ _); [|by intros [= <- <-]; cbn; rewrite Ha]);
    (destruct (files w !! path pkg); intros [= <- <-]; cbn; by rewrite ?Ha).
Qed.

(** A turn that throws: the prompt was cancelled, the current version of
    the package is no semantic version, or its manifest is not there. *)
Lemma bump_package_err pkg tv w w1 e :
  bump_package pkg tv w = (w1, Err e) →
  private (content pkg) = false ∧ w1 = asked pkg w ∧
  ((answers w = [] ∧ e = DepSynkyError "Invalid version jump: undefined")
   ∨ ∃ jump rest, answers w = jump :: rest ∧ is_release jump = true ∧
       ((Semver.parse (pkg_version pkg) = None ∧
         e = DepSynkyError ("Invalid version jump: " +:+ jump_name (Some jump)))
        ∨ (is_Some (Semver.parse (pkg_version pkg)) ∧
           files w !! path pkg = None ∧ e = FileNotFound (path pkg)))).
Proof.
  destruct (private (content pkg)) eqn:Hp.
  { by rewrite bump_package_private. }
  rewrite bump_package_public by done. intros H. split; [done|].
  destruct (answers w) as [|jump rest] eqn:Ha.
  { injection H as <- <-. split; [done|]. by left. }
  destruct jump; unfold release_type in H; [| | |done].
  all: destruct (Semver.inc _ _) as [next|] eqn:Hinc;
    unfold Semver.inc in Hinc;
    destruct (Semver.parse (pkg_version pkg)) as [v|] eqn:Hv;
    cbn in Hinc; try done.
  all: try (destruct (files w !! path pkg) eqn:Hf; [done|]).
  all: injection H as <- <-; (split; [done|]); right; eexists _, _;
    (split_and!; [done..|]).
  all: first [by left | right; split_and!; [by eexists|done..]].
Qed.

Lemma bump_packages_asks pkgs :
  ∀ tv w w' r, bump_packages pkgs tv w = (w', r) →
  ∃ ps, prompted w' = prompted w ++ ps ∧
        ps `prefix_of` (shown <$> prompted_packages pkgs) ∧
        (∀ tv', r = Ok tv' →
           ps = shown <$> prompted_packages pkgs ∧
           answers w' = drop (length (prompted_packages pkgs)) (answers w) ∧
           length (prompted_packages pkgs) ≤ length (answers w)).
Proof.
  induction pkgs as [|pkg rest IH]; intros tv w w' r H.
  { cbn in H. injection H as <- <-. exists []. rewrite app_nil_r.
    split_and!; [done..|]. intros tv' _. split_and!; [done|done|cbn; lia]. }
  rewrite bump_packages_cons in H. rewrite prompted_packages_cons.
  destruct (private (content pkg)) eqn:Hp.
  { rewrite bump_package_private in H by done. by apply IH in H. }
  destruct (bump_package pkg tv w) as [w1 r1] eqn:Hstep.
  destruct (bump_package_asks _ _ _ _ _ Hp Hstep) as [Hp1 Ha1].
  destruct r1 as [tv1|e].
  - destruct (IH _ _ _ _ H) as (ps & Hps & Hpre & Hok).
    destruct (bump_package_ok _ _ _ _ _ Hp Hstep) as (jump & tl & Ha & _).
    exists (shown pkg :: ps). split_and!.
    + by rewrite Hps, Hp1, <- app_assoc.
    + rewrite fmap_cons. by apply prefix_cons.
    + intros tv' Hr. destruct (Hok tv' Hr) as (-> & Hdrop & Hlen).
      rewrite Ha1, Ha in Hdrop, Hlen. cbn in Hdrop, Hlen.
      rewrite Ha. cbn. split_and!; [done|done|lia].
  - injection H as <- <-. exists [shown pkg]. split_and!; [done| |done].
    rewrite fmap_cons. apply prefix_cons, prefix_nil.
Qed.

(** X1: the command prompts for the target packages that are not
    private, in their order, showing each by its name and its version in
    the list of target packages, whatever the outcome: when the loop
    throws, the prompts are the first of them; when it completes, they are
    all of them, and each consumed one answer. *)
Theorem prompts_follow_the_public_packages pkgs tv w w' r :
  bump_packages pkgs tv w = (w', r) →
  new_prompts w w' `prefix_of` (shown <$> prompted_packages pkgs) ∧
  (∀ tv', r = Ok tv' →
     new_prompts w w' = shown <$> prompted_packages pkgs ∧
     answers w' = drop (length (prompted_packages pkgs)) (answers w) ∧
     length (prompted_packages pkgs) ≤ length (answers w)).
Proof.
  intros H. destruct (bump_packages_asks _ _ _ _ _ H) as (ps & Hps & Hpre & Hok).
  rewrite (new_prompts_app _ _ _ Hps). split; [done|].
  intros tv' Hr. by destruct (Hok tv' Hr) as (<- & ? & ?).
Qed.

Lemma chosen_cons_public pkg rest jump tl :
  private (content pkg) = false →
  chosen (pkg :: rest) (jump :: tl) = (pkg, jump) :: chosen rest tl.
Proof. intros Hp. unfold chosen. by rewrite prompted_packages_cons, Hp. Qed.

Lemma chosen_cons_private pkg rest answers :
  private (content pkg) = true → chosen (pkg :: rest) answers = chosen rest answers.
Proof. intros Hp. unfold chosen. by rewrite prompted_packages_cons, Hp. Qed.

Lemma release_type_is_release jump :
  match release_type (Some jump) with
  | Some _ => is_release jump = true
  | None => is_release jump = false
  end.
Proof. by destruct jump. Qed.

(** X2: when the loop completes, the manifests it wrote are those of the
    prompted packages whose answer was patch, minor or major, one write
    for each and in the order of the target packages; a package answered
    with none is not written. *)
Theorem writes_follow_the_release_answers pkgs :
  ∀ tv w w' tv', bump_packages pkgs tv w = (w', Ok tv') →
  new_writes w w'
  = (λ pa, pkg_path pa.1)
      <$> filter (λ pa, is_release pa.2 = true) (chosen pkgs (answers w)).
Proof.
  assert (∀ pkgs tv w w' tv', bump_packages pkgs tv w = (w', Ok tv') →
    written w' = written w ++
      ((λ pa, pkg_path pa.1)
         <$> filter (λ pa, is_release pa.2 = true) (chosen pkgs (answers w)))) as Hw.
  { clear pkgs. induction pkgs as [|pkg rest IH]; intros tv w w' tv' H.
    { cbn in H. injection H as <- _. by rewrite app_nil_r. }
    rewrite bump_packages_cons in H.
    destruct (private (content pkg)) eqn:Hp.
    { rewrite bump_package_private in H by done.
      rewrite chosen_cons_private by done. by eapply IH. }
    destruct (bump_package pkg tv w) as [w1 [tv1|e]] eqn:Hstep; [|done].
    destruct (bump_package_ok _ _ _ _ _ Hp Hstep) as (jump & tl & Ha & Ha1 & Hcase).
    rewrite (IH _ _ _ _ H), Ha, Ha1, chosen_cons_public by done.
    pose proof (release_type_is_release jump) as Hrel.
    destruct (release_type (Some jump)) as [release|].
    - destruct Hcase as (next & cur & _ & _ & _ & -> & _).
      rewrite filter_cons_True by done. by rewrite fmap_cons, <- app_assoc.
    - destruct Hcase as (_ & -> & _).
      rewrite filter_cons_False; [done|]. cbn. by rewrite Hrel. }
  intros tv w w' tv' H. apply new_writes_app. by eapply Hw.
Qed.

(** X3: the loop throws a [DepSynkyError] for two reasons only: the
    prompt for a package was cancelled (no answer), or the package was
    answered with patch, minor or major and its current version is not a
    semantic version.  The message is [Invalid version jump: ] followed by
    the answer, also when it is the version that is invalid. *)
Theorem invalid_jump_means_cancelled_or_invalid_version pkgs :
  ∀ tv w w' message,
  bump_packages pkgs tv w = (w', Err (DepSynkyError message)) →
  ∃ k pkg, prompted_packages pkgs !! k = Some pkg ∧
    ((answers w !! k = None ∧ message = "Invalid version jump: undefined")
     ∨ ∃ jump, answers w !! k = Some jump ∧ is_release jump = true ∧
         Semver.parse (pkg_version pkg) = None ∧
         message = "Invalid version jump: " +:+ jump_name (Some jump)).
Proof.
  induction pkgs as [|pkg rest IH]; intros tv w w' message H; [done|].
  rewrite bump_packages_cons in H. rewrite prompted_packages_cons.
  destruct (private (content pkg)) eqn:Hp.
  { rewrite bump_package_private in H by done. by eapply IH. }
  destruct (bump_package pkg tv w) as [w1 [tv1|e]] eqn:Hstep.
  - destruct (bump_package_ok _ _ _ _ _ Hp Hstep) as (jump & tl & Ha & Ha1 & _).
    destruct (IH _ _ _ _ H) as (k & pkg' & Hk & Hcase).
    exists (S k), pkg'. split; [done|]. by rewrite Ha, <- Ha1.
  - injection H as <- ->.
    destruct (bump_package_err _ _ _ _ _ Hstep) as (_ & _ & Hcase).
    exists 0, pkg. split; [done|].
    destruct Hcase as [[-> [= ->]]|(jump & tl & -> & Hrel & Hcase)]; [by left|].
    right. exists jump.
    destruct Hcase as [[Hv [= ->]]|(_ & _ & [=])]. done.
Qed.

(** X4: the loop completes when every prompt gets an answer and every
    package prompted for has a semantic version and a manifest at its
    path. *)
Theorem loop_completes_on_valid_packages pkgs :
  ∀ tv w,
  length (prompted_packages pkgs) ≤ length (answers w) →
  (∀ pkg, pkg ∈ prompted_packages pkgs →
     is_Some (Semver.parse (pkg_version pkg)) ∧ is_Some (files w !! path pkg)) →
  ∃ w' tv', bump_packages pkgs tv w = (w', Ok tv').
Proof.
  induction pkgs as [|pkg rest IH]; intros tv w Hlen Hvalid.
  { by eexists _, _. }
  rewrite bump_packages_cons. rewrite prompted_packages_cons in Hlen, Hvalid.
  destruct (private (content pkg)) eqn:Hp.
  { rewrite bump_package_private by done. by apply IH. }
  destruct (Hvalid pkg) as [Hv [cur Hcur]]; [left|].
  destruct (answers w) as [|jump tl] eqn:Ha; [cbn in Hlen; lia|].
  destruct (bump_package pkg tv w) as [w1 [tv1|e]] eqn:Hstep.
  - destruct (bump_package_asks _ _ _ _ _ Hp Hstep) as [_ Ha1].
    apply IH.
    + rewrite Ha1, Ha. cbn in *. lia.
    + intros pkg' Hin. destruct (Hvalid pkg') as [Hv' [cur' Hcur']]; [by right|].
      split; [done|].
      destruct (bump_package_ok _ _ _ _ _ Hp Hstep) as (j & t & _ & _ & Hcase).
      destruct (release_type (Some j)).
      * destruct Hcase as (next & c & _ & _ & -> & _).
        destruct (decide (path pkg' = path pkg)) as [->|Hne].
        -- rewrite lookup_insert_eq. by eexists.
        -- rewrite lookup_insert_ne by done. by eexists.
      * destruct Hcase as (-> & _). by eexists.
  - destruct (bump_package_err _ _ _ _ _ Hstep) as (_ & _ & Hcase).
    destruct Hcase as [[Hnil _]|(j & t & _ & _ & [[Hnone _]|(_ & Hnone & _)])].
    + congruence.
    + rewrite Hnone in Hv. by destruct Hv.
    + congruence.
Qed.

Lemma inc_release_precedes v release :
  Semver.prerelease (Semver.inc_release v release) = [] ∧
  precedes v (Semver.inc_release v release).
Proof.
  split; [by destruct release|]. unfold precedes.
  destruct release; cbn.
  - destruct (Semver.prerelease v) as [|i ids] eqn:Hpre; cbn.
    + rewrite !orb_true_r. left. lia.
    + rewrite orb_false_r.
      destruct (Semver.minor v =? 0)%N eqn:Hm; cbn.
      * destruct (Semver.patch v =? 0)%N eqn:Hpa; cbn; [|left; lia].
        apply N.eqb_eq in Hm, Hpa. right. right. right. by split_and!.
      * left. lia.
  - destruct (Semver.prerelease v) as [|i ids] eqn:Hpre; cbn.
    + rewrite orb_true_r. right. left. split; [done|lia].
    + rewrite orb_false_r.
      destruct (Semver.patch v =? 0)%N eqn:Hpa; cbn.
      * apply N.eqb_eq in Hpa. right. right. right. by split_and!.
      * right. left. split; [done|lia].
  - destruct (Semver.prerelease v) as [|i ids] eqn:Hpre; cbn.
    + right. right. left. split_and!; [done..|lia].
    + right. right. right. by split_and!.
Qed.

(** X5: a bump moves the version forward: when a package is answered
    with patch, minor or major and its turn completes, the version
    written to its manifest and to the target versions is a release
    (no prerelease identifiers) that the current version precedes. *)
Theorem bump_moves_the_version_forward pkg tv w w1 tv1 jump :
  private (content pkg) = false →
  head (answers w) = Some jump → is_release jump = true →
  bump_package pkg tv w = (w1, Ok tv1) →
  ∃ v v', Semver.parse (pkg_version pkg) = Some v ∧
    Semver.prerelease v' = [] ∧ precedes v v' ∧
    tv1 !! pkg_name pkg = Some (Semver.format v') ∧
    version <$> files w1 !! path pkg = Some (Semver.format v').
Proof.
  intros Hp Hhead Hrel Hstep.
  destruct (bump_package_ok _ _ _ _ _ Hp Hstep) as (j & tl & Ha & _ & Hcase).
  rewrite Ha in Hhead. injection Hhead as ->.
  pose proof (release_type_is_release jump) as Hrt.
  destruct (release_type (Some jump)) as [release|]; [|congruence].
  destruct Hcase as (next & cur & Hinc & _ & -> & _ & ->).
  unfold Semver.inc in Hinc.
  destruct (Semver.parse (pkg_version pkg)) as [v|]; [|done].
  cbn in Hinc. injection Hinc as <-.
  destruct (inc_release_precedes v release) as [Hpre Hlt].
  exists v, (Semver.inc_release v release).
  split_and!; [done..| |]; by rewrite lookup_insert_eq.
Qed.

End DepsynkyRuns.

(** ** Constructed definitions and the definitions that are refused *)

Section Construction.
Import Zod Sdk Spec.

Variable tr : value → result string (gmap string value).

Lemma manifest_regular : regular integrationDefinitionSchema = true.
Proof. reflexivity. Qed.

Lemma strip_fields (shape : list (string * ZodType)) (m1 m2 : gmap string value) :
  conforms (ZodObject shape strip) (VObj m1) →
  (∀ k, k ∈ shape.*1 → prop m2 k = prop m1 k) →
  dom m2 ⊆@{gset string} list_to_set shape.*1 →
  conforms (ZodObject shape strip) (VObj m2).
Proof.
  intros (m & [= <-] & Hnd & Hfields & _) Hsame Hdom.
  exists m2. split_and!; [done..| |done].
  clear Hnd Hdom. induction shape as [|[k s] shape IH]; [done|].
  destruct Hfields as [Hk Hrest]. split.
  - cbn. rewrite Hsame; [done|]. left.
  - apply IH; [done|]. intros k' Hk'. apply Hsame. by right.
Qed.

Lemma fields_dom r :
  dom (fields r) ⊆@{gset string}
  list_to_set (shape_of integrationDefinitionSchema).*1.
Proof.
  intros k [y Hy]%elem_of_dom. unfold fields in Hy.
  apply elem_of_list_to_map_2 in Hy. apply elem_of_list_to_set. cbn.
  repeat (apply elem_of_cons in Hy as [[= -> _]|Hy]; [elem_tac|]).
  by apply elem_of_nil in Hy.
Qed.

(** X6: the constructed object has exactly the shape of the manifest
    schema: its thirteen properties conform to their schemas, every
    section holds the declared keys and no other, and no entry of a
    dictionary or of a translated schema is [undefined].  Validating it once
    more returns it as it is. *)
Theorem constructed_definition_has_the_manifest_shape (m : gmap string value) r :
  new_IntegrationDefinition tr (VObj m) = Ok r →
  conforms integrationDefinitionSchema (VObj (fields r)) ∧
  validate (VObj (fields r)) = Ok (VObj (fields r)).
Proof.
  intros Hnew. destruct (new_Ok_inv tr _ _ Hnew) as (f & p & _ & Hp & ->).
  assert (conforms integrationDefinitionSchema (VObj (fields (assign_fields p))))
    as Hc.
  { unfold validate in Hp.
    destruct (parse integrationDefinitionSchema f) as [p'|] eqn:Hparse; [|done].
    injection Hp as ->. apply parse_Ok in Hparse as [Hi Ho].
    pose proof (valid_conforms _ manifest_regular _ _ _ Hi Ho) as Hc.
    unfold integrationDefinitionSchema, object in Hc |- *.
    pose proof Hc as (pm & -> & _).
    eapply strip_fields; [exact Hc| |apply fields_dom].
    intros k Hk. unfold prop at 1. by rewrite fields_assign. }
  split; [done|]. unfold validate. by rewrite (parse_conforms_Ok _ _ Hc).
Qed.

Lemma prop_insert_ne (m : gmap string value) k k' v :
  k ≠ k' → prop (<[k := v]> m) k' = prop m k'.
Proof. intros Hne. unfold prop. by rewrite lookup_insert_ne. Qed.

Lemma prop_delete_ne (m : gmap string value) k k' :
  k ≠ k' → prop (delete k m) k' = prop m k'.
Proof. intros Hne. unfold prop. by rewrite lookup_delete_ne. Qed.

Lemma prop_delete_eq (m : gmap string value) k : prop (delete k m) k = VUndefined.
Proof. unfold prop. by rewrite lookup_delete_eq. Qed.

(** An object that strips unknown keys does not look at them. *)
Lemma strip_ignores_undeclared shape path (m : gmap string value) k v :
  k ∉ shape.*1 →
  _parse (ZodObject shape strip) path (VObj (<[k := v]> m))
  = _parse (ZodObject shape strip) path (VObj m).
Proof.
  intros Hk. cbn. do 2 f_equal. apply map_ext_in.
  intros [k' s'] Hin%list_elem_of_In. cbn.
  assert (k ≠ k') as Hne.
  { intros ->. apply Hk. apply list_elem_of_fmap. by exists (k', s'). }
  by rewrite prop_insert_ne, lookup_insert_ne.
Qed.

Lemma format_undeclared (m : gmap string value) k v :
  k ∉ (shape_of integrationDefinitionSchema).*1 →
  formatIntegrationDefinition tr (VObj (<[k := v]> m))
  = (λ f, VObj (<[k := v]> (own_props f))) <$> formatIntegrationDefinition tr (VObj m).
Proof.
  intros Hk.
  assert (∀ k', k' ∈ (shape_of integrationDefinitionSchema).*1 → k ≠ k') as Hne.
  { intros k' Hk' ->. by apply Hk. }
  unfold formatIntegrationDefinition. cbn.
  rewrite !prop_insert_ne by (apply Hne; cbn; elem_tac).
  destruct (if truthy (prop m "configuration") then _ else _) as [conf|]; cbn; [|done].
  destruct (if truthy (prop m "events") then _ else _) as [ev|]; cbn; [|done].
  destruct (if truthy (prop m "actions") then _ else _) as [ac|]; cbn; [|done].
  destruct (if truthy (prop m "channels") then _ else _) as [ch|]; cbn; [|done].
  destruct (if truthy (prop m "states") then _ else _) as [st|]; cbn; [|done].
  do 2 f_equal.
  rewrite !(insert_insert_ne _ _ k) by (apply not_eq_sym, Hne; cbn; elem_tac).
  done.
Qed.

(** X7: a top-level key that the manifest schema does not declare has no
    effect on construction: with or without it the constructor returns
    the same object or throws the same error. *)
Theorem undeclared_keys_have_no_effect (m : gmap string value) k v :
  k ∉ (shape_of integrationDefinitionSchema).*1 →
  new_IntegrationDefinition tr (VObj (<[k := v]> m))
  = new_IntegrationDefinition tr (VObj m).
Proof.
  intros Hk. unfold new_IntegrationDefinition. rewrite format_undeclared by done.
  destruct (formatIntegrationDefinition tr (VObj m)) as [f|e] eqn:Hf; [|done].
  apply format_object in Hf as (conf & ev & ac & ch & st & -> & _). cbn.
  assert (validate (VObj (<[k := v]> (merged m conf ev ac ch st)))
          = validate (VObj (merged m conf ev ac ch st))) as ->; [|done].
  unfold validate, parse, integrationDefinitionSchema, object.
  by rewrite strip_ignores_undeclared.
Qed.

Lemma format_falsy_section (m : gmap string value) k :
  k ∈ ["configuration"; "events"; "actions"; "channels"; "states"] →
  truthy (prop m k) = false →
  formatIntegrationDefinition tr (VObj (delete k m))
  = formatIntegrationDefinition tr (VObj m).
Proof.
  intros Hk Hfalsy. unfold formatIntegrationDefinition. cbn.
  repeat (apply elem_of_cons in Hk as [->|Hk];
    [rewrite prop_delete_eq, !prop_delete_ne, Hfalsy by done; cbn;
     repeat (match goal with
             | |- context [if truthy ?v then ?a else ?b] =>
                 destruct (if truthy v then a else b); cbn; [|done]
             end);
     do 2 f_equal;
     rewrite ?insert_delete_ne by done; rewrite insert_delete_eq;
     by rewrite ?delete_insert_ne by done
    |]).
  by apply elem_of_nil in Hk.
Qed.

(** X8: a section of the five that carry schemas whose value is falsy
    ([null], [false], [0], the empty string) is taken as omitted: its
    translation is not asked for, and construction does what it does for
    the definition without that key. *)
Theorem falsy_section_is_omitted (m : gmap string value) k :
  k ∈ ["configuration"; "events"; "actions"; "channels"; "states"] →
  truthy (prop m k) = false →
  new_IntegrationDefinition tr (VObj m)
  = new_IntegrationDefinition tr (VObj (delete k m)).
Proof.
  intros Hk Hfalsy. unfold new_IntegrationDefinition.
  by rewrite format_falsy_section.
Qed.

(** X9: optional is not nullable: [null] at an optional field other than
    the five sections that carry schemas makes construction fail, with an
    issue at that field saying that [null] was received. *)
Theorem optional_fields_reject_null (m : gmap string value) k :
  k ∈ ["title"; "description"; "icon"; "readme"; "user"; "secrets"] →
  prop m k = VNull →
  (∀ r, new_IntegrationDefinition tr (VObj m) ≠ Ok r) ∧
  (∀ f, formatIntegrationDefinition tr (VObj m) = Ok f →
        ∃ errs t, new_IntegrationDefinition tr (VObj m) = Err (ZodError errs) ∧
                  Issue (invalid_type (ExpType t) t_null) [PKey k] ∈ errs).
Proof.
  intros Hk Hnull.
  assert (∃ s t, (k, s) ∈ shape_of integrationDefinitionSchema ∧
            k ∈ ["name"; "version"; "title"; "description"; "icon"; "readme";
                 "user"; "secrets"] ∧
            _parse s [PKey k] VNull
            = INVALID (invalid_type (ExpType t) t_null) [PKey k])
    as (s & t & Hks & Hplain & Hparse).
  { repeat (apply elem_of_cons in Hk as [->|Hk];
      [eexists _, _; split_and!; [cbn; elem_tac|elem_tac|reflexivity]|]).
    by apply elem_of_nil in Hk. }
  rewrite <- Hnull in Hparse.
  destruct (plain_field_rejected tr m k s _ Hks Hplain Hparse) as [Hnever Herr].
  split; [done|]. intros f Hf. destruct (Herr f Hf) as (errs & ? & ?).
  by exists errs, t.
Qed.






Lemma literal_rejected lit path v :
  v ≠ VStr lit → _parse (ZodLiteral lit) path v = INVALID (invalid_literal lit v) path.
Proof.
  intros Hv. destruct v; try done. cbn.
  destruct (String.eqb s lit) eqn:Heq; [|done]. by apply String.eqb_eq in Heq as ->.
Qed.

(** A union of literals that matches none of them reports what each of
    them refused. *)
Lemma union_of_literals_rejects lits path v :
  (∀ lit, lit ∈ lits → v ≠ VStr lit) →
  _parse (ZodUnion (ZodLiteral <$> lits)) path v
  = INVALID (invalid_union ((λ lit, [Issue (invalid_literal lit v) path]) <$> lits))
            path.
Proof.
  intros Hv. cbn [_parse].
  assert (map (λ o, _parse o path v) (ZodLiteral <$> lits)
          = (λ lit, INVALID (invalid_literal lit v) path) <$> lits) as ->.
  { induction lits as [|lit lits IH]; [done|]. rewrite !fmap_cons. cbn [map].
    rewrite literal_rejected by (apply Hv; left).
    f_equal. apply IH. intros lit' Hin. apply Hv. by right. }
  assert (∀ f : string → ParseReturn,
    (∀ lit, isValid (f lit) = false) → find isValid (f <$> lits) = None) as Hfind1.
  { clear. intros f Hf. induction lits as [|lit lits IH]; [done|]. cbn.
    by rewrite Hf. }
  assert (∀ f : string → ParseReturn,
    (∀ lit, isDirty (f lit) = false) → find isDirty (f <$> lits) = None) as Hfind2.
  { clear. intros f Hf. induction lits as [|lit lits IH]; [done|]. cbn.
    by rewrite Hf. }
  rewrite Hfind1, Hfind2 by done. do 2 f_equal.
  clear. induction lits as [|lit lits IH]; [done|]. cbn. by rewrite IH.
Qed.

Lemma states_shape_NoDup : NoDup (shape_of stateDefinitionSchema).*1.
Proof. apply (bool_decide_unpack _). by vm_compute. Qed.

(** X11: the type of a state is one of [integration], [conversation]
    and [user]: a definition declaring a state of another type is never
    constructed, and once its sections have been formatted the validation
    error has, at the type of that state, the issue of the union with what
    each of the three literals refused; every state of a constructed
    definition has one of the three types. *)
Theorem states_have_one_of_three_types :
  (∀ (m sts o : gmap string value) k,
     m !! "states" = Some (VObj sts) → sts !! k = Some (VObj o) →
     (∀ lit, lit ∈ ["integration"; "conversation"; "user"] →
             prop o "type" ≠ VStr lit) →
     (∀ r, new_IntegrationDefinition tr (VObj m) ≠ Ok r) ∧
     (∀ f, formatIntegrationDefinition tr (VObj m) = Ok f →
           ∃ errs, new_IntegrationDefinition tr (VObj m) = Err (ZodError errs) ∧
             Issue (invalid_union
                      ((λ lit, [Issue (invalid_literal lit (prop o "type"))
                                  [PKey "states"; PKey k; PKey "type"]])
                         <$> ["integration"; "conversation"; "user"]))
                   [PKey "states"; PKey k; PKey "type"] ∈ errs)) ∧
  (∀ (m sm : gmap string value) r k state,
     new_IntegrationDefinition tr (VObj m) = Ok r →
     states r = VObj sm → sm !! k = Some state →
     ∃ o lit, state = VObj o ∧ o !! "type" = Some (VStr lit) ∧
              lit ∈ ["integration"; "conversation"; "user"]).
Proof.
  split.
  - intros m sts o k Hm Hk Hty.
    assert (∀ f, formatIntegrationDefinition tr (VObj m) = Ok f →
      ∃ errs, new_IntegrationDefinition tr (VObj m) = Err (ZodError errs) ∧
        Issue (invalid_union
                 ((λ lit, [Issue (invalid_literal lit (prop o "type"))
                             [PKey "states"; PKey k; PKey "type"]])
                    <$> ["integration"; "conversation"; "user"]))
              [PKey "states"; PKey k; PKey "type"] ∈ errs) as Hfail.
    { intros f Hf. rewrite (new_of_format _ _ _ Hf).
      apply format_object in Hf as (conf & ev & ac & ch & st & -> & _ & _ & _ & _ & Hst).
      unfold prop in Hst. rewrite Hm in Hst. cbn [default truthy] in Hst.
      apply mapValues_object in Hst as (stm & -> & Hstm).
      specialize (Hstm k). rewrite Hk in Hstm.
      inversion Hstm as [? st' Hfs Heq1 Heq2|]; subst. symmetry in Heq2.
      apply with_json_schema_inv in Hfs as (j & _ & ->). cbn [own_props] in Heq2.
      match goal with
      | |- ∃ errs, _ = _ ∧ ?i ∈ errs =>
          destruct (manifest_issue (merged m conf ev ac ch (VObj stm)) "states"
                      (optional (record stateDefinitionSchema)) i)
            as (errs & -> & Hin); [cbn; elem_tac| |by exists errs]
      end.
      destruct (merged_sections m conf ev ac ch (VObj stm)) as (_ & _ & _ & _ & ->).
      rewrite optional_defined by done. apply record_issues.
      eexists k, _. split; [done|]. apply object_issues.
      eexists "type", _. split; [cbn; left|].
      rewrite prop_insert_ne by done.
      change (ZodUnion [ZodLiteral "integration"; ZodLiteral "conversation";
                        ZodLiteral "user"])
        with (ZodUnion (ZodLiteral <$> ["integration"; "conversation"; "user"])).
      rewrite union_of_literals_rejects by done. left. }
    split; [|done]. intros r Hr.
    destruct (new_Ok_inv tr _ _ Hr) as (f & _ & Hf & _).
    destruct (Hfail f Hf) as (errs & Herr & _). congruence.
  - intros m sm r k state Hnew Hsm Hk.
    destruct (new_Ok_inv tr _ _ Hnew) as (f & p & Hf & Hp & ->).
    apply format_object in Hf as (conf & ev & ac & ch & st & -> & _).
    apply manifest_valid in Hp as (pm & -> & Hpm).
    destruct (Hpm "states" (optional (record stateDefinitionSchema)))
      as [Hi Ho]; [cbn; elem_tac|].
    cbn [assign_fields states own_props] in Hsm. rewrite Hsm in Ho.
    assert (regular (optional (record stateDefinitionSchema)) = true) as Hreg
      by reflexivity.
    pose proof (valid_conforms _ Hreg _ _ _ Hi Ho) as [[=]|(sm' & [= <-] & Hall)].
    destruct (Hall k state Hk) as [_ Hc].
    unfold stateDefinitionSchema, object in Hc.
    destruct Hc as (o & -> & _ & ((_ & Hty) & _) & _).
    exists o. unfold prop in Hty. cbn in Hty.
    destruct Hty as [Hty|[Hty|[Hty|[]]]];
      (destruct (o !! "type") as [ty|]; [|done]); cbn in Hty; subst ty;
      eexists; (split_and!; [done..|elem_tac]).
Qed.



Lemma array_issues e path (l : list value) i :
  i ∈ issues (_parse (ZodArray e) path (VArr l)) ↔
  ∃ j x, l !! j = Some x ∧ i ∈ issues (_parse e (path ++ [PIdx j]) x).
Proof.
  cbn. unfold mergeArray. cbn. rewrite elem_of_concat. split.
  - intros (is' & Hin & His).
    apply list_elem_of_fmap in His as (r & -> & Hr).
    apply elem_of_lookup_imap_1 in Hr as (j & x & -> & Hx). by exists j, x.
  - intros (j & x & Hx & Hin). eexists. split; [done|].
    apply list_elem_of_fmap. eexists. split; [done|].
    by apply (elem_of_lookup_imap_2 (λ i y, _parse e (path ++ [PIdx i]) y) l x j).
Qed.

(** X13: every secret must be a string, and one that is not is reported
    at its index: the definition is never constructed, and once its
    sections have been formatted the validation error has an issue at
    [secrets, j] for the j-th secret, naming the type received. *)
Theorem secrets_are_strings (m : gmap string value) l j x :
  prop m "secrets" = VArr l → l !! j = Some x → (∀ s, x ≠ VStr s) →
  (∀ r, new_IntegrationDefinition tr (VObj m) ≠ Ok r) ∧
  (∀ f, formatIntegrationDefinition tr (VObj m) = Ok f →
        ∃ errs, new_IntegrationDefinition tr (VObj m) = Err (ZodError errs) ∧
                Issue (invalid_type (ExpType t_string) (getParsedType x))
                      [PKey "secrets"; PIdx j] ∈ errs).
Proof.
  intros Hsecrets Hj Hx.
  assert (∀ f, formatIntegrationDefinition tr (VObj m) = Ok f →
    ∃ errs, new_IntegrationDefinition tr (VObj m) = Err (ZodError errs) ∧
            Issue (invalid_type (ExpType t_string) (getParsedType x))
                  [PKey "secrets"; PIdx j] ∈ errs) as Hfail.
  { intros f Hf. rewrite (new_of_format _ _ _ Hf).
    apply format_object in Hf as (conf & ev & ac & ch & st & -> & _).
    match goal with
    | |- ∃ errs, _ = _ ∧ ?i ∈ errs =>
        destruct (manifest_issue (merged m conf ev ac ch st) "secrets"
                    (optional (ZodArray ZodString)) i)
          as (errs & -> & Hin); [cbn; elem_tac| |by exists errs]
    end.
    rewrite merged_plain, Hsecrets by elem_tac.
    rewrite optional_defined by done. apply array_issues.
    exists j, x. split; [done|]. destruct x; try (by left). by destruct (Hx s). }
  split; [|done]. intros r Hr.
  destruct (new_Ok_inv tr _ _ Hr) as (f & _ & Hf & _).
  destruct (Hfail f Hf) as (errs & Herr & _). congruence.
Qed.



(** X15: a channel that has no messages property (or [null] there)
    makes construction throw before validation: the definition is never
    constructed, and what is thrown is not the validation error. *)
Theorem channel_without_messages_throws (m chans o : gmap string value) c :
  m !! "channels" = Some (VObj chans) → chans !! c = Some (VObj o) →
  prop o "messages" = VUndefined ∨ prop o "messages" = VNull →
  ∃ e, new_IntegrationDefinition tr (VObj m) = Err e ∧ not_ZodError e.
Proof.
  intros Hm Hc Hms. unfold new_IntegrationDefinition.
  destruct (formatIntegrationDefinition tr (VObj m)) as [f|e] eqn:Hf.
  - exfalso.
    apply format_object in Hf as (conf & ev & ac & ch & st & _ & _ & _ & _ & Hch & _).
    unfold prop in Hch. rewrite Hm in Hch. cbn [default truthy] in Hch.
    apply mapValues_object in Hch as (chm & _ & Hchm).
    specialize (Hchm c). rewrite Hc in Hchm.
    inversion Hchm as [? ch' Hfc|]; subst.
    unfold format_channel in Hfc. cbn in Hfc.
    by destruct Hms as [Hu|Hu]; rewrite Hu in Hfc.
  - exists e. split; [done|]. by eapply format_not_ZodError.
Qed.


End Construction.

(** ** The theorems at sample inputs *)

Section Instances.
Import Zod Sdk Depsynky Spec Examples.



(** The smallest definition has no configuration. *)
Lemma omitted_fields_are_undefined_witness :
  fields minimal_constructed !! "configuration" = Some VUndefined.
Proof.
  apply (omitted_fields_are_undefined toJsonSchema minimal minimal_constructed).
  - by vm_compute.
  - unfold optional_fields. elem_tac.
  - by vm_compute.
Defined.

(** The validation error for a name that is a number says so at
    [name]. *)
Lemma validation_follows_formatting_and_locates_issues_witness :
  new_IntegrationDefinition toJsonSchema (VObj numbered_name)
  = Err (ZodError [Issue (invalid_type (ExpType t_string) t_number) [PKey "name"]]).
Proof.
  destruct (validation_follows_formatting_and_locates_issues toJsonSchema numbered_name)
    as (_ & Hvalidated & _).
  destruct (Hvalidated
              (VObj (merged numbered_name VUndefined VUndefined VUndefined
                            VUndefined VUndefined)))
    as (_ & _ & _ & _ & _ & _ & Herr); [by vm_compute|].
  apply Herr. by vm_compute.
Defined.

Lemma slack_is_constructed :
  new_IntegrationDefinition toJsonSchema (VObj slack) = Ok slack_constructed.
Proof. reflexivity. Qed.

(** A key of a section that the manifest schema does not declare is
    accepted and dropped: such a definition is outside the exact shape. *)
Example undeclared_keys_are_dropped :
  configuration <$> new_IntegrationDefinition toJsonSchema (VObj annotated)
  = Ok (obj [("schema", json_schema [("token", VStr "string")])]).
Proof. reflexivity. Qed.





(** C6, as stated, fails: the user answers the prompt for the client and
    cancels the prompt for the CLI; the command throws, whatever would
    have listed and synchronised the versions afterwards, and the
    manifest of the client stays rewritten. *)
Lemma bump_failure_leaves_a_manifest_rewritten :
  (∀ listVersions syncVersions sync,
     bumpVersion workspace_references workspace_versions listVersions syncVersions
       "@botpress/client" (mkArgv "." sync) cancelling
     = (cancelled, Err (DepSynkyError "Invalid version jump: undefined"))) ∧
  bump_packages targets Examples.current cancelling
  = (cancelled, Err (DepSynkyError "Invalid version jump: undefined")) ∧
  files cancelling !! path client = Some (content client) ∧
  files cancelled !! path client = Some (set_version "0.1.2" (content client)) ∧
  files cancelled ≠ files cancelling ∧
  new_writes cancelling cancelled = [path client].
Proof.
  split_and!; [by intros ???|reflexivity..| |reflexivity].
  intros Heq. apply (f_equal (λ fs, version <$> fs !! path client)) in Heq.
  vm_compute in Heq. discriminate Heq.
Qed.

(** The same run, read through the theorem. *)
Lemma bump_failure_keeps_earlier_writes_witness :
  ∃ before pkg after tv1 w1,
    targets = before ++ pkg :: after ∧
    bump_packages before Examples.current cancelling = (w1, Ok tv1) ∧
    bump_package pkg tv1 w1
    = (cancelled, Err (DepSynkyError "Invalid version jump: undefined")) ∧
    files cancelled = files w1 ∧ written cancelled = written w1.
Proof.
  apply (bump_failure_keeps_earlier_writes targets Examples.current cancelling
           cancelled (DepSynkyError "Invalid version jump: undefined")).
  reflexivity.
Defined.


End Instances.

(** ** Runs and constructions at sample inputs *)

Section MoreInstances.
Import Zod Sdk Depsynky Spec Examples.

(** The client and the CLI are prompted for, in this order. *)
Lemma prompts_follow_the_public_packages_witness :
  new_prompts answering bumped `prefix_of` (shown <$> prompted_packages targets) ∧
  (∀ tv', @Ok Failure _ bumped_versions = Ok tv' →
     new_prompts answering bumped = shown <$> prompted_packages targets ∧
     answers bumped = drop (length (prompted_packages targets)) (answers answering) ∧
     length (prompted_packages targets) ≤ length (answers answering)).
Proof.
  apply (prompts_follow_the_public_packages targets Examples.current answering bumped
           (Ok bumped_versions)).
  reflexivity.
Defined.

(** Only the manifest of the client is written: the CLI was answered
    with none. *)
Lemma writes_follow_the_release_answers_witness :
  new_writes answering bumped
  = (λ pa, pkg_path pa.1)
      <$> filter (λ pa, is_release pa.2 = true) (chosen targets (answers answering)).
Proof.
  apply (writes_follow_the_release_answers targets Examples.current answering bumped
           bumped_versions).
  reflexivity.
Defined.

(** The draft is answered with patch and its version is no semantic
    version: the error blames the jump. *)
Lemma invalid_jump_means_cancelled_or_invalid_version_witness :
  ∃ k pkg, prompted_packages [draft] !! k = Some pkg ∧
    ((answers drafting !! k = None ∧
      "Invalid version jump: patch" = "Invalid version jump: undefined")
     ∨ ∃ jump, answers drafting !! k = Some jump ∧ is_release jump = true ∧
         Semver.parse (pkg_version pkg) = None ∧
         "Invalid version jump: patch"
         = "Invalid version jump: " +:+ jump_name (Some jump)).
Proof.
  apply (invalid_jump_means_cancelled_or_invalid_version [draft] ∅ drafting drafted
           "Invalid version jump: patch").
  reflexivity.
Defined.

(** With two answers for the two public packages, the loop completes. *)
Lemma loop_completes_on_valid_packages_witness :
  ∃ w' tv', bump_packages targets Examples.current answering = (w', Ok tv').
Proof.
  apply (loop_completes_on_valid_packages targets Examples.current answering).
  - vm_compute. lia.
  - intros pkg Hin.
    assert (prompted_packages targets = [client; cli]) as Heq by reflexivity.
    rewrite Heq in Hin.
    apply elem_of_cons in Hin as [->|Hin];
      [|apply list_elem_of_singleton in Hin as ->];
      split; eexists; reflexivity.
Defined.

(** The client goes from 0.1.1 to 0.1.2. *)
Lemma bump_moves_the_version_forward_witness :
  ∃ v v', Semver.parse (pkg_version client) = Some v ∧
    Semver.prerelease v' = [] ∧ precedes v v' ∧
    bumped_versions !! pkg_name client = Some (Semver.format v') ∧
    Depsynky.version <$> files client_bumped !! path client = Some (Semver.format v').
Proof.
  apply (bump_moves_the_version_forward client Examples.current answering
           client_bumped bumped_versions patch); reflexivity.
Defined.

(** The constructed Slack definition has the shape of the manifest. *)
Lemma constructed_definition_has_the_manifest_shape_witness :
  conforms integrationDefinitionSchema (VObj (fields slack_constructed)) ∧
  validate (VObj (fields slack_constructed)) = Ok (VObj (fields slack_constructed)).
Proof.
  apply (constructed_definition_has_the_manifest_shape toJsonSchema slack
           slack_constructed).
  reflexivity.
Defined.

(** A [public] flag changes nothing. *)
Lemma undeclared_keys_have_no_effect_witness :
  new_IntegrationDefinition toJsonSchema (VObj flagged)
  = new_IntegrationDefinition toJsonSchema (VObj minimal).
Proof.
  apply (undeclared_keys_have_no_effect toJsonSchema minimal "public" (VBool true)).
  apply (bool_decide_unpack _). reflexivity.
Defined.

(** A configuration that is [null] is a configuration left out. *)
Lemma falsy_section_is_omitted_witness :
  new_IntegrationDefinition toJsonSchema (VObj null_configuration)
  = new_IntegrationDefinition toJsonSchema
      (VObj (delete "configuration" null_configuration)).
Proof.
  apply (falsy_section_is_omitted toJsonSchema null_configuration "configuration").
  - elem_tac.
  - reflexivity.
Defined.

(** Secrets that are [null] are refused. *)
Lemma optional_fields_reject_null_witness :
  (∀ r, new_IntegrationDefinition toJsonSchema (VObj null_secrets) ≠ Ok r) ∧
  (∀ f, formatIntegrationDefinition toJsonSchema (VObj null_secrets) = Ok f →
        ∃ errs t,
          new_IntegrationDefinition toJsonSchema (VObj null_secrets)
          = Err (ZodError errs) ∧
          Issue (invalid_type (ExpType t) t_null) [PKey "secrets"] ∈ errs).
Proof.
  apply (optional_fields_reject_null toJsonSchema null_secrets "secrets").
  - elem_tac.
  - reflexivity.
Defined.


(** A state of type bot is refused; the state of the Slack definition
    is of type integration. *)
Lemma states_have_one_of_three_types_witness :
  (∀ r, new_IntegrationDefinition toJsonSchema (VObj odd_state) ≠ Ok r) ∧
  (∀ sm k state,
     states slack_constructed = VObj sm → sm !! k = Some state →
     ∃ o lit, state = VObj o ∧ o !! "type" = Some (VStr lit) ∧
              lit ∈ ["integration"; "conversation"; "user"]).
Proof.
  split.
  - eapply (proj1 (states_have_one_of_three_types toJsonSchema)
              odd_state _ _ "session"); [reflexivity..|].
    intros lit Hlit Heq. vm_compute in Heq. injection Heq as <-.
    repeat (apply elem_of_cons in Hlit as [Hlit|Hlit]; [discriminate Hlit|]).
    by apply elem_of_nil in Hlit.
  - intros sm k state.
    apply (proj2 (states_have_one_of_three_types toJsonSchema) slack).
    apply slack_is_constructed.
Defined.


(** The second secret is a number. *)
Lemma secrets_are_strings_witness :
  (∀ r, new_IntegrationDefinition toJsonSchema (VObj numbered_secret) ≠ Ok r) ∧
  (∀ f, formatIntegrationDefinition toJsonSchema (VObj numbered_secret) = Ok f →
        ∃ errs,
          new_IntegrationDefinition toJsonSchema (VObj numbered_secret)
          = Err (ZodError errs) ∧
          Issue (invalid_type (ExpType t_string) (getParsedType (VNum 5)))
                [PKey "secrets"; PIdx 1] ∈ errs).
Proof.
  apply (secrets_are_strings toJsonSchema numbered_secret
           [VStr "SENTRY_DSN"; VNum 5] 1 (VNum 5)).
  - reflexivity.
  - reflexivity.
  - intros s. discriminate.
Defined.


(** A channel with a title and nothing else. *)
Lemma channel_without_messages_throws_witness :
  ∃ e, new_IntegrationDefinition toJsonSchema (VObj mute_channel) = Err e ∧
       not_ZodError e.
Proof.
  eapply (channel_without_messages_throws toJsonSchema mute_channel _ _ "channel").
  - reflexivity.
  - reflexivity.
  - left. reflexivity.
Defined.


End MoreInstances.
